(** * LinkedIn lead pipeline: a shallow embedding of the service modules

    The development follows the source files of the repository:

    - [Js]         the fragment of the JavaScript runtime the code relies on
                   (JSON values, truthiness, property access, string methods);
    - [Apify]      [src/services/apify.js]: the URL normalizer and the engager
                   extractor;
    - [Apollo]     [src/services/apollo.js]: per-URL enrichment and batching;
    - [Smartlead]  [src/services/smartlead.js]: bulk delivery and its fallback;
    - [Pipeline]   [src/index.js]: the controller [runPipeline].

    Strings are byte strings.  Every pattern the code searches for is ASCII, and
    no byte of a multi-byte UTF-8 sequence is an ASCII byte, so searching bytes
    and searching UTF-16 code units find the same occurrences. *)

From Stdlib Require Import String Ascii List ZArith Lia Bool Arith DecimalString.
Import ListNotations.
Open Scope string_scope.
Set Warnings "-register-all".

(* ================================================================== *)
(** ** The JavaScript fragment *)
(* ================================================================== *)

Module Js.

(** Values that reach the code from a parsed JSON body.  [undefined] is not a
    JSON value: a property read yields [option json], [None] being
    [undefined].  Numbers are the integer-valued ones. *)
Inductive json : Type :=
| JNull
| JBool (b : bool)
| JNum (z : Z)
| JStr (s : string)
| JArr (items : list json)
| JObj (fields : list (string * json)).

(** What a [throw] carries.  [HttpError st] is an axios error whose
    [error.response?.status] reads [st]; the other two have no [response]. *)
Inductive exn : Type :=
| TypeError
| Error (msg : string)
| HttpError (status : option Z).

Inductive result (A : Type) : Type :=
| Ok (a : A)
| Throw (e : exn).
Arguments Ok {A} a.
Arguments Throw {A} e.

Definition bind {A B} (r : result A) (k : A -> result B) : result B :=
  match r with
  | Ok a => k a
  | Throw e => Throw e
  end.

Notation "x <- c ;; k" := (bind c (fun x => k))
  (at level 61, c at next level, right associativity).

(** ToBoolean. *)
Definition truthy (v : json) : bool :=
  match v with
  | JNull => false
  | JBool b => b
  | JNum z => negb (Z.eqb z 0)
  | JStr s => negb (String.eqb s EmptyString)
  | JArr _ => true
  | JObj _ => true
  end.

Definition truthyU (v : option json) : bool :=
  match v with
  | Some x => truthy x
  | None => false
  end.

(** [a || b] on possibly-undefined values. *)
Definition or_else (a b : option json) : option json :=
  if truthyU a then a else b.

Fixpoint assoc (k : string) (fields : list (string * json)) : option json :=
  match fields with
  | [] => None
  | (k', v) :: rest => if String.eqb k k' then Some v else assoc k rest
  end.

(** [v[k]] for a [v] that is neither [null] nor [undefined], and a key [k]
    that is none of the inherited names of primitives and arrays.  The one
    inherited name the code reads is [link] on a string, a function, which
    the [typeof ... === 'string'] test next to it discards like
    [undefined]. *)
Definition get (v : json) (k : string) : option json :=
  match v with
  | JObj fields => assoc k fields
  | _ => None
  end.

(** [v.k] with the [TypeError] of reading a property of [null]. *)
Definition prop (v : json) (k : string) : result (option json) :=
  match v with
  | JNull => Throw TypeError
  | _ => Ok (get v k)
  end.

(** [typeof v === 'object'] for a truthy [v]. *)
Definition is_object (v : json) : bool :=
  match v with
  | JArr _ | JObj _ => true
  | _ => false
  end.

Definition string_of_Z (z : Z) : string :=
  NilZero.string_of_int (Z.to_int z).

(** ToString, as a template literal applies it.  A plain object prints as
    [[object Object]] unless it has an own [toString] field: that field is no
    function, and [Object.prototype.valueOf] returns no primitive, so the
    conversion throws.  An array joins its elements with commas, [null]
    printing as the empty string. *)
Fixpoint toString (v : json) : result string :=
  match v with
  | JNull => Ok "null"
  | JBool true => Ok "true"
  | JBool false => Ok "false"
  | JNum z => Ok (string_of_Z z)
  | JStr s => Ok s
  | JArr items =>
      (fix join (l : list json) : result string :=
         match l with
         | [] => Ok EmptyString
         | x :: rest =>
             sx <- match x with JNull => Ok EmptyString | _ => toString x end ;;
             match rest with
             | [] => Ok sx
             | _ => srest <- join rest ;; Ok (sx ++ "," ++ srest)
             end
         end) items
  | JObj fields =>
      match assoc "toString" fields with
      | Some _ => Throw TypeError
      | None => Ok "[object Object]"
      end
  end.

(** *** String methods *)

(** [s.startsWith(p)]. *)
Fixpoint startsWith (p s : string) : bool :=
  match p with
  | EmptyString => true
  | String a p' =>
      match s with
      | EmptyString => false
      | String b s' => Ascii.eqb a b && startsWith p' s'
      end
  end.

(** [s.includes(p)]. *)
Fixpoint includes (p s : string) : bool :=
  startsWith p s ||
  match s with
  | EmptyString => false
  | String _ s' => includes p s'
  end.

(** [s.split(c)] for a one-character separator: never the empty array, so
    that the default of [hd] below, where [arr[0]] is read, is never used. *)
Fixpoint split (c : ascii) (s : string) : list string :=
  match s with
  | EmptyString => [EmptyString]
  | String a s' =>
      if Ascii.eqb a c then EmptyString :: split c s'
      else match split c s' with
           | [] => [String a EmptyString]
           | piece :: pieces => String a piece :: pieces
           end
  end.

(** Does [c+$] match the whole of [s]? *)
Fixpoint run_to_end (c : ascii) (s : string) : bool :=
  match s with
  | EmptyString => false
  | String a EmptyString => Ascii.eqb a c
  | String a s' => Ascii.eqb a c && run_to_end c s'
  end.

(** [s.replace(/c+$/, '')]: the leftmost position from which [c+$] matches is
    where the string is cut. *)
Fixpoint replace_run_at_end (c : ascii) (s : string) : string :=
  if run_to_end c s then EmptyString
  else match s with
       | EmptyString => EmptyString
       | String a s' => String a (replace_run_at_end c s')
       end.

Fixpoint drop (n : nat) (s : string) : string :=
  match n, s with
  | O, _ => s
  | S _, EmptyString => EmptyString
  | S n', String _ s' => drop n' s'
  end.

(** [s.replace(p, r)] for a string pattern: the first occurrence only.  The
    replacement used by the code has no [$]. *)
Fixpoint replace (p r s : string) : string :=
  if startsWith p s then r ++ drop (String.length p) s
  else match s with
       | EmptyString => EmptyString
       | String a s' => String a (replace p r s')
       end.

(** A [Set] of strings iterates in insertion order. *)
Definition StrSet := list string.

Definition set_has (x : string) (s : StrSet) : bool :=
  existsb (String.eqb x) s.

Definition set_add (x : string) (s : StrSet) : StrSet :=
  if set_has x s then s else (s ++ [x])%list.

End Js.

Import Js.

(* ================================================================== *)
(** ** src/services/apify.js *)
(* ================================================================== *)

Module Apify.

(** [normalizeLinkedInUrl(url)]; [None] is the [null] it returns. *)
Definition normalizeLinkedInUrl (url : option json) : option string :=
  match url with
  | Some (JStr u) =>
      if negb (truthy (JStr u)) then None
      else if negb (includes "linkedin.com" u) then None
      else
        let normalized := replace_run_at_end "/" (hd EmptyString (split "?" u)) in
        let normalized :=
          if startsWith "http://" normalized
          then replace "http://" "https://" normalized
          else normalized in
        Some normalized
  | _ => None
  end.

Definition urlFields : list string :=
  ["profileUrl"; "profile_url"; "linkedinUrl"; "linkedin_url";
   "url"; "link"; "actorUrl"; "authorUrl"; "memberUrl"].

Definition nestedObjects : list string :=
  ["actor"; "user"; "profile"; "reactor"; "author"; "member"; "commenter"].

Definition profileTemplate (id : string) : string :=
  "https://www.linkedin.com/in/" ++ id.

(** The body of the two loops over [urlFields]: the field has to be a
    non-empty string that includes [linkedin.com/in/]. *)
Definition addUrlField (v : option json) (profileUrls : StrSet) : StrSet :=
  match v with
  | Some (JStr u) =>
      if truthy (JStr u) && includes "linkedin.com/in/" u then
        match normalizeLinkedInUrl (Some (JStr u)) with
        | Some normalized => set_add normalized profileUrls
        | None => profileUrls
        end
      else profileUrls
  | _ => profileUrls
  end.

Definition addUrlFields (o : json) (profileUrls : StrSet) : StrSet :=
  fold_left (fun acc field => addUrlField (get o field) acc) urlFields profileUrls.

(** [if (o.k) profileUrls.add(`https://www.linkedin.com/in/${o.k}`)]. *)
Definition addIdentifier (o : json) (k : string) (profileUrls : StrSet)
  : result StrSet :=
  match get o k with
  | Some id =>
      if truthy id then
        s <- toString id ;; Ok (set_add (profileTemplate s) profileUrls)
      else Ok profileUrls
  | None => Ok profileUrls
  end.

Definition addNested (item : json) (objName : string) (profileUrls : StrSet)
  : result StrSet :=
  match get item objName with
  | Some o =>
      if truthy o && is_object o then
        let profileUrls := addUrlFields o profileUrls in
        profileUrls <- addIdentifier o "publicId" profileUrls ;;
        profileUrls <- addIdentifier o "publicIdentifier" profileUrls ;;
        addIdentifier o "vanityName" profileUrls
      else Ok profileUrls
  | None => Ok profileUrls
  end.

(** A [for ... of] loop whose body may throw. *)
Fixpoint forEach {A S} (body : A -> S -> result S) (l : list A) (s : S)
  : result S :=
  match l with
  | [] => Ok s
  | x :: rest => s' <- body x s ;; forEach body rest s'
  end.

(** [extractUrlFromItem(item, profileUrls)]. *)
Definition extractUrlFromItem (item : json) (profileUrls : StrSet)
  : result StrSet :=
  if negb (truthy item) then Ok profileUrls
  else
    let profileUrls := addUrlFields item profileUrls in
    profileUrls <- forEach (addNested item) nestedObjects profileUrls ;;
    profileUrls <- addIdentifier item "publicId" profileUrls ;;
    addIdentifier item "publicIdentifier" profileUrls.

(** The loop over a collection that is only walked when [Array.isArray]. *)
Definition forArray (body : json -> StrSet -> result StrSet)
  (coll : option json) (profileUrls : StrSet) : result StrSet :=
  match coll with
  | Some (JArr items) => forEach body items profileUrls
  | _ => Ok profileUrls
  end.

Definition emptyArray : option json := Some (JArr []).

(** The body of [for (const comment of comments)]. *)
Definition extractComment (comment : json) (profileUrls : StrSet)
  : result StrSet :=
  profileUrls <- extractUrlFromItem comment profileUrls ;;
  author <- prop comment "author" ;;
  match author with
  | Some a => if truthy a then extractUrlFromItem a profileUrls
              else Ok profileUrls
  | None => Ok profileUrls
  end.

(** The body of [for (const post of postData)]. *)
Definition extractPost (post : json) (profileUrls : StrSet) : result StrSet :=
  authorProfileUrl <- prop post "authorProfileUrl" ;;
  let profileUrls :=
    if truthyU authorProfileUrl then
      match normalizeLinkedInUrl authorProfileUrl with
      | Some normalized => set_add normalized profileUrls
      | None => profileUrls
      end
    else profileUrls in
  let reactions :=
    or_else (get post "reactions")
      (or_else (get post "likers") (or_else (get post "likes") emptyArray)) in
  profileUrls <- forArray extractUrlFromItem reactions profileUrls ;;
  let comments :=
    or_else (get post "comments")
      (or_else (get post "commenters") emptyArray) in
  profileUrls <- forArray extractComment comments profileUrls ;;
  let engagements :=
    or_else (get post "engagements")
      (or_else (get post "engagement") emptyArray) in
  forArray extractUrlFromItem engagements profileUrls.

(** [extractProfileUrls(postData)].  The logging block at its head reads
    [Object.keys(postData[0])] and [postData[0].reactions], which throw on a
    [null] first record; [JSON.stringify] of a JSON value is a string. *)
Definition extractProfileUrls (postData : list json) : result (list string) :=
  _ <- match postData with
       | JNull :: _ => Throw TypeError
       | _ => Ok tt
       end ;;
  forEach extractPost postData [].

End Apify.

(* ================================================================== *)
(** ** What an HTTP request comes back with *)
(* ================================================================== *)

(** An axios call resolves with a response whose [data] is the parsed body
    ([None]: no body, [data] reads [undefined]), or rejects. *)
Inductive http_outcome : Type :=
| Resolved (data : option json)
| Rejected (e : exn).

Definition await (o : http_outcome) : result (option json) :=
  match o with
  | Resolved data => Ok data
  | Rejected e => Throw e
  end.

(** [error.response?.status === n]. *)
Definition has_status (e : exn) (n : Z) : bool :=
  match e with
  | HttpError (Some st) => Z.eqb st n
  | _ => false
  end.

(** What a service does to the outside, in order. *)
Inductive io : Type :=
| Post (path : string) (body : list json)
| Sleep (ms : Z).

(* ================================================================== *)
(** ** src/services/apollo.js *)
(* ================================================================== *)

Module Apollo.

Record contact : Type := mkContact {
  email : json;
  firstName : json;
  lastName : json;
  title : json;
  companyName : json;
  linkedinUrl : string;
  emailStatus : option json
}.

(** [a || d] with a default [d] that is a value. *)
Definition or_default (a : option json) (d : json) : json :=
  match a with
  | Some x => if truthy x then x else d
  | None => d
  end.

(** [o?.k]. *)
Definition opt_chain (o : option json) (k : string) : option json :=
  match o with
  | None | Some JNull => None
  | Some v => get v k
  end.

(** [emailStatus === s]. *)
Definition status_is (emailStatus : option json) (s : string) : bool :=
  match emailStatus with
  | Some (JStr t) => String.eqb t s
  | _ => false
  end.

(** The enrichment backend: the outcome of the [k]-th request made for a
    profile URL. *)
Definition backend := string -> nat -> http_outcome.

(** The [try] block of [enrichProfile], given what the request came back
    with. *)
Definition enrichAttempt (linkedinUrl : string) (o : http_outcome)
  : result (option contact) :=
  data <- await o ;;
  person <- match data with
            | None => Throw TypeError
            | Some d => prop d "person"
            end ;;
  match person with
  | None => Ok None
  | Some person =>
      if negb (truthy person) then Ok None
      else
        let email := get person "email" in
        let emailStatus := get person "email_status" in
        if negb (truthyU email) || status_is emailStatus "guessed"
           || status_is emailStatus "unavailable"
        then Ok None
        else
          match email with
          | None => Ok None
          | Some email =>
              Ok (Some {|
                email := email;
                firstName := or_default (get person "first_name") (JStr EmptyString);
                lastName := or_default (get person "last_name") (JStr EmptyString);
                title := or_default (get person "title") (JStr EmptyString);
                companyName :=
                  or_default
                    (or_else (opt_chain (get person "organization") "name")
                             (get person "company"))
                    (JStr EmptyString);
                linkedinUrl := linkedinUrl;
                emailStatus := emailStatus |})
          end
  end.

Definition matchRequest (linkedinUrl : string) : io :=
  Post "/people/match" [JStr linkedinUrl].

(** [enrichProfile(linkedinUrl)], at its [k]-th request for the URL.  The
    source recurses without a bound while the backend answers 429; [fuel]
    bounds the depth and [None] is a call that has not returned within it. *)
Fixpoint enrichProfile (fuel : nat) (be : backend) (linkedinUrl : string)
  (k : nat) : option (result (option contact) * list io) :=
  match fuel with
  | O => None
  | S fuel' =>
      match enrichAttempt linkedinUrl (be linkedinUrl k) with
      | Ok r => Some (Ok r, [matchRequest linkedinUrl])
      | Throw error =>
          if has_status error 429 then
            match enrichProfile fuel' be linkedinUrl (S k) with
            | Some (r, t) =>
                Some (r, matchRequest linkedinUrl :: Sleep 5000 :: t)
            | None => None
            end
          else Some (Ok None, [matchRequest linkedinUrl])
      end
  end.

(** An array object: [ref] is its identity, the number of arrays allocated
    before it in the call that made it. *)
Record chunk : Type := mkChunk { ref : nat; elems : list string }.

(** [array.slice(b, e)]. *)
Definition slice (b e : nat) (array : list string) : list string :=
  skipn b (firstn e array).

(** The loop of [chunkArray]: it does not end when [size] is 0 and the array
    is not empty. *)
Fixpoint chunkLoop (fuel : nat) (array : list string) (size i : nat)
  (chunks : list chunk) : option (list chunk) :=
  match fuel with
  | O => None
  | S fuel' =>
      if (i <? length array)%nat then
        chunkLoop fuel' array size (i + size)
          (chunks ++ [mkChunk (length chunks) (slice i (i + size) array)])%list
      else Some chunks
  end.

Definition chunkArray (fuel : nat) (array : list string) (size : nat)
  : option (list chunk) :=
  chunkLoop fuel array size 0 [].

(** [batches.indexOf(batch)]: arrays are compared by identity. *)
Fixpoint indexOf (batch : chunk) (batches : list chunk) : Z :=
  match batches with
  | [] => (-1)%Z
  | b :: rest =>
      if (ref b =? ref batch)%nat then 0%Z
      else let r := indexOf batch rest in
           if (r <? 0)%Z then (-1)%Z else (r + 1)%Z
  end.

(** What [enrichProfiles] does to the outside: a wave of requests issued
    together, each with what its own call did, or the pause between waves. *)
Inductive wave_event : Type :=
| Wave (calls : list (string * list io))
| Delay (ms : Z).

Fixpoint mapEnrich (fuel : nat) (be : backend) (batch : list string)
  : option (list (result (option contact) * list io)) :=
  match batch with
  | [] => Some []
  | url :: rest =>
      match enrichProfile fuel be url 0, mapEnrich fuel be rest with
      | Some r, Some rs => Some (r :: rs)
      | _, _ => None
      end
  end.

(** [Promise.all]. *)
Fixpoint promiseAll {A} (l : list (result A)) : result (list A) :=
  match l with
  | [] => Ok []
  | r :: rest => a <- r ;; as' <- promiseAll rest ;; Ok (a :: as')
  end.

Fixpoint truthyResults (l : list (option contact)) : list contact :=
  match l with
  | [] => []
  | Some c :: rest => c :: truthyResults rest
  | None :: rest => truthyResults rest
  end.

(** The loop [for (const batch of batches)] of [enrichProfiles]. *)
Fixpoint batchLoop (fuel : nat) (be : backend) (batches todo : list chunk)
  (delayMs : Z) (enrichedContacts : list contact)
  : option (result (list contact) * list wave_event) :=
  match todo with
  | [] => Some (Ok enrichedContacts, [])
  | batch :: rest =>
      match mapEnrich fuel be (elems batch) with
      | None => None
      | Some rs =>
          let wave := Wave (combine (elems batch) (map snd rs)) in
          match promiseAll (map fst rs) with
          | Throw e => Some (Throw e, [wave])
          | Ok results =>
              let enrichedContacts :=
                (enrichedContacts ++ truthyResults results)%list in
              let pause :=
                if (indexOf batch batches <? Z.of_nat (length batches) - 1)%Z
                then [Delay delayMs] else [] in
              match batchLoop fuel be batches rest delayMs enrichedContacts with
              | None => None
              | Some (r, t) => Some (r, wave :: pause ++ t)%list
              end
          end
      end
  end.

(** [enrichProfiles(linkedinUrls, concurrency, delayMs)]. *)
Definition enrichProfiles (fuel : nat) (be : backend)
  (linkedinUrls : list string) (concurrency : nat) (delayMs : Z)
  : option (result (list contact) * list wave_event) :=
  match chunkArray fuel linkedinUrls concurrency with
  | None => None
  | Some batches => batchLoop fuel be batches batches delayMs []
  end.

Definition defaultDelayMs : Z := 1000.

End Apollo.

(* ================================================================== *)
(** ** src/services/smartlead.js *)
(* ================================================================== *)

Module Smartlead.

Import Apollo.

Record lead : Type := mkLead {
  lead_email : json;
  first_name : json;
  last_name : json;
  company : json;
  lead_title : json;
  linkedin_url : string
}.

(** [formatLead(contact)]. *)
Definition formatLead (c : contact) : lead :=
  {| lead_email := email c;
     first_name := or_default (Some (firstName c)) (JStr EmptyString);
     last_name := or_default (Some (lastName c)) (JStr EmptyString);
     company := or_default (Some (companyName c)) (JStr EmptyString);
     lead_title := or_default (Some (title c)) (JStr EmptyString);
     linkedin_url := linkedinUrl c |}.

(** The campaign backend: what the [n]-th upload of a run, of the given
    [lead_list], comes back with. *)
Definition backend := nat -> list lead -> http_outcome.

(** What the submitter does to the outside. *)
Inductive upload : Type :=
| PostLeads (lead_list : list lead)
| Pause (ms : Z).

(** An entry of the [leads] list of the fallback path. *)
Inductive lead_result : Type :=
| Added (email : json) (response : option json)
| Failed (email : json) (error : exn).

Definition success (r : lead_result) : bool :=
  match r with
  | Added _ _ => true
  | Failed _ _ => false
  end.

Record summary : Type := mkSummary {
  added : json;
  failed : json;
  leads : option (list lead_result);
  response : option json
}.

Definition JLen {A} (l : list A) : json := JNum (Z.of_nat (length l)).

(** The loop of [addLeadsIndividually], [n] being the number of uploads made
    before the lead at hand. *)
Fixpoint individualLoop (be : backend) (n : nat) (todo : list lead)
  (addedCount failedCount : nat) (results : list lead_result)
  : (nat * nat * list lead_result) * list upload :=
  match todo with
  | [] => ((addedCount, failedCount, results), [])
  | l :: rest =>
      let '(addedCount, failedCount, results) :=
        match await (be n [l]) with
        | Ok data =>
            (S addedCount, failedCount,
             (results ++ [Added (lead_email l) data])%list)
        | Throw error =>
            (addedCount, S failedCount,
             (results ++ [Failed (lead_email l) error])%list)
        end in
      let '(final, t) :=
        individualLoop be (S n) rest addedCount failedCount results in
      (final, PostLeads [l] :: Pause 200 :: t)
  end.

(** [addLeadsIndividually(leads)]. *)
Definition addLeadsIndividually (be : backend) (n : nat) (ls : list lead)
  : result summary * list upload :=
  let '((addedCount, failedCount, results), t) :=
    individualLoop be n ls 0 0 [] in
  (Ok {| added := JNum (Z.of_nat addedCount);
         failed := JNum (Z.of_nat failedCount);
         leads := Some results;
         response := None |}, t).

(** The [try] block of [addLeads] after the upload came back. *)
Definition bulkSummary (formattedLeads : list lead) (o : http_outcome)
  : result summary :=
  data <- await o ;;
  match data with
  | None | Some JNull => Throw TypeError
  | Some result =>
      let addedCount :=
        or_default
          (or_else (get result "upload_count") (get result "total_leads"))
          (JLen formattedLeads) in
      let failedCount := or_default (get result "failed_count") (JNum 0) in
      (* logger.step prints [addedCount] through a template literal *)
      _ <- toString addedCount ;;
      Ok {| added := addedCount;
            failed := failedCount;
            leads := None;
            response := Some result |}
  end.

(** [addLeads(contacts)]. *)
Definition addLeads (be : backend) (contacts : list contact)
  : result summary * list upload :=
  if (length contacts =? 0)%nat then
    (Ok {| added := JNum 0; failed := JNum 0; leads := Some [];
           response := None |}, [])
  else
    let formattedLeads := map formatLead contacts in
    match bulkSummary formattedLeads (be 0 formattedLeads) with
    | Ok s => (Ok s, [PostLeads formattedLeads])
    | Throw _ =>
        let '(r, t) := addLeadsIndividually be 1 formattedLeads in
        (r, PostLeads formattedLeads :: t)
    end.

End Smartlead.

(* ================================================================== *)
(** ** src/index.js *)
(* ================================================================== *)

Module Pipeline.

Import Apify.

Record stats : Type := mkStats {
  engagers : nat;
  enriched : nat;
  pushed : json;
  failed : json
}.

(** The four ways the controller writes to the thread. *)
Inductive notification : Type :=
| Status (text : string)
| Message (text : string)
| Summary (s : stats)
| ErrorNote (text : string).

(** The collaborators of a run.  [runActor] stands for the scraping backend
    behind [ApifyService.runActor], [slack] for whether posting a given
    notification succeeds. *)
Record world : Type := mkWorld {
  slack : notification -> result unit;
  runActor : string -> result (list json);
  apollo : Apollo.backend;
  smartlead : Smartlead.backend
}.

Inductive event : Type :=
| Notify (n : notification)
| Scrape (postUrl : string)
| Enrich (profileUrls : list string) (waves : list Apollo.wave_event)
| Deliver (contacts : list Apollo.contact) (uploads : list Smartlead.upload).


(** [ApifyService.getPostEngagers(postUrl)]; its [catch] logs and rethrows. *)
Definition getPostEngagers (w : world) (postUrl : string)
  : result (list string) :=
  results <- runActor w postUrl ;;
  if (length results =? 0)%nat then Ok []
  else extractProfileUrls results.

(** A run: how it ended, the statistics it held then, and what it did. *)
Definition run : Type := result unit * stats * list event.





End Pipeline.

(* ================================================================== *)
(** ** src/services/apify.js: the extractor with its truthiness test *)
(* ================================================================== *)

(** [extractProfileUrls] and [extractUrlFromItem] insert a normalized URL
    under [if (normalized)], which the empty string does not pass: a URL
    whose part before the first [?] is empty or all slashes is normalized to
    the empty string and left out.  [Apify.addUrlField] and
    [Apify.extractPost] insert whatever the normalizer returns.  This module
    is the extractor with the test; the two are related below. *)
Module ApifyExact.

Import Apify.

(** [if (normalized) profileUrls.add(normalized)]. *)
Definition addNormalized (normalized : option string) (profileUrls : StrSet)
  : StrSet :=
  match normalized with
  | Some n => if truthy (JStr n) then set_add n profileUrls else profileUrls
  | None => profileUrls
  end.

Definition addUrlField (v : option json) (profileUrls : StrSet) : StrSet :=
  match v with
  | Some (JStr u) =>
      if truthy (JStr u) && includes "linkedin.com/in/" u then
        addNormalized (normalizeLinkedInUrl (Some (JStr u))) profileUrls
      else profileUrls
  | _ => profileUrls
  end.

Definition addUrlFields (o : json) (profileUrls : StrSet) : StrSet :=
  fold_left (fun acc field => addUrlField (get o field) acc) urlFields profileUrls.

Definition addNested (item : json) (objName : string) (profileUrls : StrSet)
  : result StrSet :=
  match get item objName with
  | Some o =>
      if truthy o && is_object o then
        let profileUrls := addUrlFields o profileUrls in
        profileUrls <- addIdentifier o "publicId" profileUrls ;;
        profileUrls <- addIdentifier o "publicIdentifier" profileUrls ;;
        addIdentifier o "vanityName" profileUrls
      else Ok profileUrls
  | None => Ok profileUrls
  end.

(** [extractUrlFromItem(item, profileUrls)]. *)
Definition extractUrlFromItem (item : json) (profileUrls : StrSet)
  : result StrSet :=
  if negb (truthy item) then Ok profileUrls
  else
    let profileUrls := addUrlFields item profileUrls in
    profileUrls <- forEach (addNested item) nestedObjects profileUrls ;;
    profileUrls <- addIdentifier item "publicId" profileUrls ;;
    addIdentifier item "publicIdentifier" profileUrls.

Definition extractComment (comment : json) (profileUrls : StrSet)
  : result StrSet :=
  profileUrls <- extractUrlFromItem comment profileUrls ;;
  author <- prop comment "author" ;;
  match author with
  | Some a => if truthy a then extractUrlFromItem a profileUrls
              else Ok profileUrls
  | None => Ok profileUrls
  end.

Definition extractPost (post : json) (profileUrls : StrSet) : result StrSet :=
  authorProfileUrl <- prop post "authorProfileUrl" ;;
  let profileUrls :=
    if truthyU authorProfileUrl then
      addNormalized (normalizeLinkedInUrl authorProfileUrl) profileUrls
    else profileUrls in
  let reactions :=
    or_else (get post "reactions")
      (or_else (get post "likers") (or_else (get post "likes") emptyArray)) in
  profileUrls <- forArray extractUrlFromItem reactions profileUrls ;;
  let comments :=
    or_else (get post "comments")
      (or_else (get post "commenters") emptyArray) in
  profileUrls <- forArray extractComment comments profileUrls ;;
  let engagements :=
    or_else (get post "engagements")
      (or_else (get post "engagement") emptyArray) in
  forArray extractUrlFromItem engagements profileUrls.

(** [extractProfileUrls(postData)] on an array. *)
Definition extractProfileUrls (postData : list json) : result (list string) :=
  _ <- match postData with
       | JNull :: _ => Throw TypeError
       | _ => Ok tt
       end ;;
  forEach extractPost postData [].

End ApifyExact.

(* ================================================================== *)
(** ** src/services/apollo.js: the public identifier *)
(* ================================================================== *)

Module ApolloIdentifier.

(** The longest prefix without [/] and [?]: what [[^\/\?]+] takes, when it is
    not empty. *)
Fixpoint identifierRun (s : string) : string :=
  match s with
  | EmptyString => EmptyString
  | String a s' =>
      if Ascii.eqb a "/" || Ascii.eqb a "?" then EmptyString
      else String a (identifierRun s')
  end.

(** [s.match(/linkedin\.com\/in\/([^\/\?]+)/)], read at its group 1: the
    leftmost position from which the literal and at least one character of
    the class match. *)
Fixpoint matchProfile (s : string) : option string :=
  let here :=
    if startsWith "linkedin.com/in/" s
    then identifierRun (drop 16 s) else EmptyString in
  if negb (String.eqb here EmptyString) then Some here
  else match s with
       | EmptyString => None
       | String _ s' => matchProfile s'
       end.

(** [extractPublicIdentifier(linkedinUrl)].  A truthy value that is no
    string has no [match] method to call. *)
Definition extractPublicIdentifier (linkedinUrl : option json)
  : result (option string) :=
  if negb (truthyU linkedinUrl) then Ok None
  else match linkedinUrl with
       | Some (JStr s) => Ok (matchProfile s)
       | _ => Throw TypeError
       end.

End ApolloIdentifier.

(* ================================================================== *)
(** ** src/services/apify.js: running the actor *)
(* ================================================================== *)

Module ApifyRun.

(** An error as the [catch] of [runActor] reads it.  [answered] is
    [error.response]: [None] when there is none, [Some data] when there is
    one, [data] being its parsed body; [text] is [error.message].  An
    exception of the engine and a [new Error(text)] have no [response]. *)
Record failure : Type := mkFailure {
  answered : option (option json);
  text : string
}.

Definition raised (msg : string) : failure :=
  {| answered := None; text := msg |}.

(** The [TypeError] of the engine; its text is a stand-in. *)
Definition typeError : failure := raised "TypeError".

Inductive reply : Type :=
| Replied (data : option json)
| Failed (f : failure).

Inductive outcome (A : Type) : Type :=
| Done (a : A)
| Raise (f : failure).
Arguments Done {A} a.
Arguments Raise {A} f.

(** What the service sends and how long it sleeps, in order. *)
Inductive call : Type :=
| Send (method path : string) (body : option json)
| Wait (ms : Z).

(** The API: what the [n]-th request of a call, to [path], comes back
    with. *)
Definition server := nat -> string -> reply.

(** ToString of a value that may be [undefined]. *)
Definition toStringU (v : option json) : outcome string :=
  match v with
  | None => Done "undefined"
  | Some x => match toString x with
              | Ok s => Done s
              | Throw _ => Raise typeError
              end
  end.

(** [v.k] for a [v] that may be [undefined]. *)
Definition member (v : option json) (k : string) : outcome (option json) :=
  match v with
  | None | Some JNull => Raise typeError
  | Some x => Done (get x k)
  end.

(** [response.data.data.status]. *)
Definition statusOf (data : option json) : outcome (option json) :=
  match member data "data" with
  | Raise f => Raise f
  | Done run => member run "status"
  end.

(** [status === s]. *)
Definition statusIs (s : string) (status : option json) : bool :=
  match status with
  | Some (JStr t) => String.eqb t s
  | _ => false
  end.

(** [['FAILED', 'ABORTED', 'TIMED-OUT'].includes(status)], with the status
    when it holds. *)
Definition terminal (status : option json) : option string :=
  match status with
  | Some (JStr t) =>
      if existsb (String.eqb t) ["FAILED"; "ABORTED"; "TIMED-OUT"]
      then Some t else None
  | _ => None
  end.

(** The loop of [waitForRun] with [remaining] attempts left, [n] requests
    having been made. *)
Fixpoint poll (srv : server) (path : string) (intervalMs : Z)
  (n remaining : nat) : outcome unit * list call :=
  match remaining with
  | O => (Raise (raised "Actor run timed out"), [])
  | S remaining' =>
      let request := Send "GET" path None in
      match srv n path with
      | Failed f => (Raise f, [request])
      | Replied data =>
          match statusOf data with
          | Raise f => (Raise f, [request])
          | Done status =>
              if statusIs "SUCCEEDED" status then (Done tt, [request])
              else match terminal status with
                   | Some t => (Raise (raised ("Actor run " ++ t)), [request])
                   | None =>
                       let '(r, t) :=
                         poll srv path intervalMs (S n) remaining' in
                       (r, request :: Wait intervalMs :: t)
                   end
          end
      end
  end.

(** [waitForRun(runId, maxAttempts, intervalMs)].  The path is made in the
    loop, so not at all when [maxAttempts] is 0. *)
Definition waitForRun (srv : server) (runId : option json)
  (maxAttempts : nat) (intervalMs : Z) (n : nat) : outcome unit * list call :=
  match maxAttempts with
  | O => poll srv EmptyString intervalMs n 0
  | _ =>
      match toStringU runId with
      | Raise f => (Raise f, [])
      | Done id => poll srv ("/actor-runs/" ++ id) intervalMs n maxAttempts
      end
  end.

Definition defaultMaxAttempts : nat := 60.
Definition defaultIntervalMs : Z := 10000.

(** [getDatasetItems(datasetId)]. *)
Definition getDatasetItems (srv : server) (datasetId : option json) (n : nat)
  : outcome json * list call :=
  match toStringU datasetId with
  | Raise f => (Raise f, [])
  | Done id =>
      let path := "/datasets/" ++ id ++ "/items" in
      match srv n path with
      | Failed f => (Raise f, [Send "GET" path None])
      | Replied data =>
          (Done (Apollo.or_default data (JArr [])), [Send "GET" path None])
      end
  end.

Definition hexDigit (n : nat) : ascii :=
  match n with
  | 0 => "0" | 1 => "1" | 2 => "2" | 3 => "3" | 4 => "4" | 5 => "5"
  | 6 => "6" | 7 => "7" | 8 => "8" | 9 => "9" | 10 => "A" | 11 => "B"
  | 12 => "C" | 13 => "D" | 14 => "E" | _ => "F"
  end%char.

(** The characters [encodeURIComponent] leaves as they are. *)
Definition unreserved (c : ascii) : bool :=
  let n := nat_of_ascii c in
  ((48 <=? n) && (n <=? 57) || (65 <=? n) && (n <=? 90)
   || (97 <=? n) && (n <=? 122))%nat
  || existsb (Ascii.eqb c)
       ["-"; "_"; "."; "!"; "~"; "*"; "'"; "("; ")"]%char.

(** [encodeURIComponent(s)] on the UTF-8 bytes of [s]. *)
Fixpoint encodeURIComponent (s : string) : string :=
  match s with
  | EmptyString => EmptyString
  | String c s' =>
      if unreserved c then String c (encodeURIComponent s')
      else String "%" (String (hexDigit (nat_of_ascii c / 16))
             (String (hexDigit (nat_of_ascii c mod 16))
                (encodeURIComponent s')))
  end.

Fixpoint requests (t : list call) : nat :=
  match t with
  | [] => 0
  | Send _ _ _ :: rest => S (requests rest)
  | Wait _ :: rest => requests rest
  end.

(** [error.response?.data?.error?.message || error.message]. *)
Definition errorMsg (f : failure) : option json :=
  let chain :=
    match answered f with
    | None => None
    | Some data =>
        Apollo.opt_chain (Apollo.opt_chain data "error") "message"
    end in
  or_else chain (Some (JStr (text f))).

(** The [catch] of [runActor]. *)
Definition rethrow (f : failure) : exn :=
  match toStringU (errorMsg f) with
  | Done msg => Error ("Apify actor failed: " ++ msg)
  | Raise _ => TypeError
  end.

(** The [try] block of [runActor]. *)
Definition tryRun (srv : server) (actorId : string) (input : json)
  : outcome json * list call :=
  let start :=
    Send "POST" ("/acts/" ++ encodeURIComponent actorId ++ "/runs")
      (Some input) in
  match srv 0 ("/acts/" ++ encodeURIComponent actorId ++ "/runs") with
  | Failed f => (Raise f, [start])
  | Replied data =>
      match member data "data" with
      | Raise f => (Raise f, [start])
      | Done run =>
          match member run "id", member run "status" with
          | Done runId, Done status =>
              let '(waited, t) :=
                if negb (statusIs "SUCCEEDED" status)
                then waitForRun srv runId defaultMaxAttempts
                       defaultIntervalMs 1
                else (Done tt, []) in
              match waited with
              | Raise f => (Raise f, start :: t)
              | Done _ =>
                  match member run "defaultDatasetId" with
                  | Raise f => (Raise f, start :: t)
                  | Done datasetId =>
                      let '(results, t') :=
                        getDatasetItems srv datasetId (S (requests t)) in
                      (results, (start :: t ++ t')%list)
                  end
              end
          | Raise f, _ => (Raise f, [start])
          | _, Raise f => (Raise f, [start])
          end
      end
  end.

(** [runActor(actorId, input)]. *)
Definition runActor (srv : server) (actorId : string) (input : json)
  : result json * list call :=
  match tryRun srv actorId input with
  | (Done results, t) => (Ok results, t)
  | (Raise f, t) => (Throw (rethrow f), t)
  end.

(** [results.length === 0]. *)
Definition lengthIsZero (results : json) : bool :=
  match results with
  | JArr [] => true
  | JStr s => String.eqb s EmptyString
  | JObj fields =>
      match assoc "length" fields with
      | Some (JNum z) => Z.eqb z 0
      | _ => false
      end
  | _ => false
  end.

(** [extractProfileUrls(results)] on whatever the dataset request gave.  A
    string is walked character by character, and a character has none of
    the fields read; any other value that is no array cannot be walked by
    [for ... of]. *)
Definition extractFrom (results : json) : result (list string) :=
  match results with
  | JArr items => ApifyExact.extractProfileUrls items
  | JStr _ => Ok []
  | _ => Throw TypeError
  end.

Definition actorInput (postUrl : string) : json :=
  JObj [("urls", JArr [JStr postUrl]);
        ("postUrls", JArr [JStr postUrl]);
        ("startUrls", JArr [JObj [("url", JStr postUrl)]])].

(** [getPostEngagers(postUrl)], [actorId] being [this.actorId]. *)
Definition getPostEngagers (srv : server) (actorId : string)
  (postUrl : string) : result (list string) * list call :=
  match runActor srv actorId (actorInput postUrl) with
  | (Throw e, t) => (Throw e, t)
  | (Ok results, t) =>
      if lengthIsZero results then (Ok [], t)
      else (extractFrom results, t)
  end.

End ApifyRun.

(* ================================================================== *)
(** ** src/index.js and the constructors: starting up *)
(* ================================================================== *)

Module Boot.

(** [process.env]: a variable is [undefined] or a string. *)
Definition env := string -> option string.

(** [process.env[v]] is truthy. *)
Definition given (e : env) (v : string) : bool :=
  match e v with
  | Some s => negb (String.eqb s EmptyString)
  | None => false
  end.

(** [process.env[v] || d]. *)
Definition orDefault (e : env) (v d : string) : string :=
  match e v with
  | Some s => if String.eqb s EmptyString then d else s
  | None => d
  end.

(** The calls into libraries, each of which may throw. *)
Inductive libCall : Type :=
| NewApp (token signingSecret : string) (socketMode : bool)
| AxiosCreate (baseURL : string)
| Start.

Definition libs := libCall -> result unit.

Record SlackService : Type := mkSlack {
  botToken : string;
  signingSecret : string;
  channelId : string
}.

Record ApifyService : Type := mkApify { apiToken : string; actorId : string }.

Record ApolloService : Type := mkApollo { apolloKey : string }.

Record SmartleadService : Type := mkSmartlead {
  smartleadKey : string;
  campaignId : string
}.

Record services : Type := mkServices {
  slack : SlackService;
  apify : ApifyService;
  apollo : ApolloService;
  smartlead : SmartleadService
}.

(** [if (!this.x) throw new Error('V is required')], [this.x] being
    [process.env.V]. *)
Definition require (e : env) (v : string) : result string :=
  match e v with
  | Some s => if String.eqb s EmptyString
              then Throw (Error (v ++ " is required")) else Ok s
  | None => Throw (Error (v ++ " is required"))
  end.

(** A construction: the service or what was thrown, and the library calls
    made. *)
Definition construction (A : Type) : Type := result A * list libCall.

Definition calling {A} (l : libs) (c : libCall) (a : A) : construction A :=
  match l c with
  | Ok _ => (Ok a, [c])
  | Throw e => (Throw e, [c])
  end.

Definition checked {A B} (r : result A) (k : A -> construction B)
  : construction B :=
  match r with
  | Ok a => k a
  | Throw e => (Throw e, [])
  end.

(** [new SlackService()]. *)
Definition newSlackService (e : env) (l : libs) : construction SlackService :=
  checked (require e "SLACK_BOT_TOKEN") (fun botToken =>
  checked (require e "SLACK_SIGNING_SECRET") (fun signingSecret =>
  checked (require e "SLACK_CHANNEL_ID") (fun channelId =>
  calling l (NewApp botToken signingSecret (given e "SLACK_APP_TOKEN"))
    (mkSlack botToken signingSecret channelId)))).

(** [new ApifyService()]. *)
Definition newApifyService (e : env) (l : libs) : construction ApifyService :=
  let actorId :=
    orDefault e "APIFY_LINKEDIN_ACTOR_ID" "supreme_coder/linkedin-post" in
  checked (require e "APIFY_API_TOKEN") (fun apiToken =>
  calling l (AxiosCreate "https://api.apify.com/v2")
    (mkApify apiToken actorId)).

(** [new ApolloService()]. *)
Definition newApolloService (e : env) (l : libs)
  : construction ApolloService :=
  checked (require e "APOLLO_API_KEY") (fun apiKey =>
  calling l (AxiosCreate "https://api.apollo.io/api/v1") (mkApollo apiKey)).

(** [new SmartleadService()]. *)
Definition newSmartleadService (e : env) (l : libs)
  : construction SmartleadService :=
  checked (require e "SMARTLEAD_API_KEY") (fun apiKey =>
  checked (require e "SMARTLEAD_CAMPAIGN_ID") (fun campaignId =>
  calling l (AxiosCreate "https://server.smartlead.ai/api/v1")
    (mkSmartlead apiKey campaignId))).

Definition andThen {A B} (c : construction A) (k : A -> construction B)
  : construction B :=
  match c with
  | (Ok a, t) => let '(r, t') := k a in (r, (t ++ t')%list)
  | (Throw e, t) => (Throw e, t)
  end.

(** [initializeServices()]; its [catch] logs and rethrows. *)
Definition initializeServices (e : env) (l : libs) : construction services :=
  andThen (newSlackService e l) (fun slack =>
  andThen (newApifyService e l) (fun apify =>
  andThen (newApolloService e l) (fun apollo =>
  andThen (newSmartleadService e l) (fun smartlead =>
  (Ok (mkServices slack apify apollo smartlead), []))))).

Definition requiredEnvVars : list string :=
  ["SLACK_BOT_TOKEN"; "SLACK_SIGNING_SECRET"; "SLACK_CHANNEL_ID";
   "APIFY_API_TOKEN"; "APOLLO_API_KEY"; "SMARTLEAD_API_KEY";
   "SMARTLEAD_CAMPAIGN_ID"].

Definition missingVars (e : env) : list string :=
  filter (fun v => negb (given e v)) requiredEnvVars.

(** How [main] ends: the process exits, or the app listens. *)
Inductive ending : Type :=
| Exit (code : Z)
| Listening (s : services).

(** [main()] with the [catch] put on it; [Start] is [slack.start(...)]. *)
Definition main (e : env) (l : libs) : ending * list libCall :=
  if (0 <? length (missingVars e))%nat then (Exit 1, [])
  else
    match initializeServices e l with
    | (Throw _, t) => (Exit 1, t)
    | (Ok s, t) =>
        match l Start with
        | Ok _ => (Listening s, (t ++ [Start])%list)
        | Throw _ => (Exit 1, (t ++ [Start])%list)
        end
    end.

End Boot.

(* ================================================================== *)
(** ** The specification's side *)
(* ================================================================== *)

Module Spec.

(** "Strip everything from the first [?] onward." *)
Fixpoint strip_from (c : ascii) (s : string) : string :=
  match s with
  | EmptyString => EmptyString
  | String a s' => if Ascii.eqb a c then EmptyString
                   else String a (strip_from c s')
  end.

(** "Strip trailing [/] characters." *)
Fixpoint strip_trailing (c : ascii) (s : string) : string :=
  match s with
  | EmptyString => EmptyString
  | String a s' =>
      match strip_trailing c s' with
      | EmptyString => if Ascii.eqb a c then EmptyString
                       else String a EmptyString
      | r => String a r
      end
  end.

(** "Upgrade an [http://] prefix to [https://]." *)
Definition upgrade (s : string) : string :=
  match s with
  | String "h" (String "t" (String "t" (String "p"
      (String ":" (String "/" (String "/" rest)))))) => "https://" ++ rest
  | _ => s
  end.

(** The canonical form the specification's words describe. *)
Definition canonical (u : string) : string :=
  upgrade (strip_trailing "/" (strip_from "?" u)).

Fixpoint has_char (c : ascii) (s : string) : bool :=
  match s with
  | EmptyString => false
  | String a s' => Ascii.eqb a c || has_char c s'
  end.

Fixpoint ends_with (c : ascii) (s : string) : bool :=
  match s with
  | EmptyString => false
  | String a EmptyString => Ascii.eqb a c
  | String _ s' => ends_with c s'
  end.


(** A string in the normalizer's image: no query, no trailing slash, no
    plain-http scheme. *)
Definition normal_form (s : string) : Prop :=
  has_char "?" s = false /\ ends_with "/" s = false /\
  startsWith "http://" s = false.





(** What the extractor does put out: a normalized URL that was found in a
    record, or the template filled with an identifier. *)
Definition extracted_form (u : string) : Prop :=
  normal_form u \/ exists id, u = Apify.profileTemplate id.


(** The backend's answer holds a person with an email that counts as
    verified. *)
Definition verified (o : http_outcome) : Prop :=
  exists d person e,
    o = Resolved (Some d) /\
    get d "person" = Some person /\ truthy person = true /\
    get person "email" = Some e /\ truthy e = true /\
    Apollo.status_is (get person "email_status") "guessed" = false /\
    Apollo.status_is (get person "email_status") "unavailable" = false.

(** The backend signals rate limiting. *)
Definition rate_limited (o : http_outcome) : bool :=
  match o with
  | Rejected e => has_status e 429
  | Resolved _ => false
  end.

(** The [n]-th request for [url] is the first that is not rate limited. *)
Definition settles_at (be : Apollo.backend) (url : string) (n : nat) : Prop :=
  (forall k, k < n -> rate_limited (be url k) = true) /\
  rate_limited (be url n) = false.

(** The contact, if any, that the answer [o] to a request gives. *)
Definition contact_of (url : string) (o : http_outcome)
  : option Apollo.contact :=
  match Apollo.enrichAttempt url o with
  | Ok r => r
  | Throw _ => None
  end.

(** The call for [u] returns within the fuel: one of its first [fuel]
    requests is not rate limited. *)
Definition live (fuel : nat) (be : Apollo.backend) (u : string) : Prop :=
  exists n, n < fuel /\ settles_at be u n.

(** [n] rounds of request, 5000ms sleep. *)
Fixpoint retries (n : nat) (url : string) : list io :=
  match n with
  | O => []
  | S n' => Apollo.matchRequest url :: Sleep 5000 :: retries n' url
  end.

Definition ceil_div (n w : nat) : nat := (n + w - 1) / w.

(** Consecutive pieces of width [w], [n] bounding their number. *)
Fixpoint pieces (n w : nat) (l : list string) : list (list string) :=
  match n with
  | O => []
  | S n' =>
      match l with
      | [] => []
      | _ => firstn w l :: pieces n' w (skipn w l)
      end
  end.

Definition batches_of (w : nat) (l : list string) : list (list string) :=
  pieces (length l) w l.

(** The arrays [chunkArray] allocates for the given pieces, the first having
    identity [k]. *)
Fixpoint tag (k : nat) (ps : list (list string)) : list Apollo.chunk :=
  match ps with
  | [] => []
  | p :: rest => Apollo.mkChunk k p :: tag (S k) rest
  end.

(** Waves with a pause between each two, and none at the end. *)
Fixpoint paced (ms : Z) (waves : list Apollo.wave_event)
  : list Apollo.wave_event :=
  match waves with
  | [] => []
  | [w] => [w]
  | w :: rest => w :: Apollo.Delay ms :: paced ms rest
  end.

(** The URLs of each wave of a trace, in order. *)
Fixpoint dispatched (t : list Apollo.wave_event) : list (list string) :=
  match t with
  | [] => []
  | Apollo.Wave calls :: rest => map fst calls :: dispatched rest
  | Apollo.Delay _ :: rest => dispatched rest
  end.

Fixpoint count_delays (t : list Apollo.wave_event) : nat :=
  match t with
  | [] => 0
  | Apollo.Delay _ :: rest => S (count_delays rest)
  | Apollo.Wave _ :: rest => count_delays rest
  end.

Definition ends_in_delay (t : list Apollo.wave_event) : bool :=
  match rev t with
  | Apollo.Delay _ :: _ => true
  | _ => false
  end.

(** One individual upload per lead, each followed by its pause. *)
Fixpoint one_by_one (ls : list Smartlead.lead) : list Smartlead.upload :=
  match ls with
  | [] => []
  | l :: rest =>
      Smartlead.PostLeads [l] :: Smartlead.Pause 200 :: one_by_one rest
  end.

(** The per-contact outcomes of the fallback, the first upload being the
    [n]-th of the run. *)
Fixpoint outcomes (be : Smartlead.backend) (n : nat) (ls : list Smartlead.lead)
  : list Smartlead.lead_result :=
  match ls with
  | [] => []
  | l :: rest =>
      match await (be n [l]) with
      | Ok data => Smartlead.Added (Smartlead.lead_email l) data
      | Throw e => Smartlead.Failed (Smartlead.lead_email l) e
      end :: outcomes be (S n) rest
  end.

Definition count_success (rs : list Smartlead.lead_result) : nat :=
  length (filter Smartlead.success rs).

Definition count_failure (rs : list Smartlead.lead_result) : nat :=
  length (filter (fun r => negb (Smartlead.success r)) rs).




End Spec.

Import Spec.

(* ================================================================== *)
(** ** Concrete inputs *)
(* ================================================================== *)

Module Samples.

Definition ada : string := "https://www.linkedin.com/in/ada".

Definition verifiedAnswer : json :=
  JObj [("person", JObj [("email", JStr "ada@example.com");
                         ("email_status", JStr "verified");
                         ("first_name", JStr "Ada")])].

Definition guessedAnswer : json :=
  JObj [("person", JObj [("email", JStr "ada@example.com");
                         ("email_status", JStr "guessed")])].

(** Two rate-limited answers, then a verified person. *)
Definition throttled : Apollo.backend :=
  fun _ k => if (k <? 2)%nat then Rejected (HttpError (Some 429%Z))
             else Resolved (Some verifiedAnswer).

Definition guessing : Apollo.backend :=
  fun _ _ => Resolved (Some guessedAnswer).

Definition unreachable : Apollo.backend :=
  fun _ _ => Rejected (Error "ECONNRESET").

Definition twelve : list string :=
  ["p01"; "p02"; "p03"; "p04"; "p05"; "p06";
   "p07"; "p08"; "p09"; "p10"; "p11"; "p12"].

Definition contactWith (address : string) : Apollo.contact :=
  {| Apollo.email := JStr address;
     Apollo.firstName := JStr EmptyString;
     Apollo.lastName := JStr EmptyString;
     Apollo.title := JStr EmptyString;
     Apollo.companyName := JStr EmptyString;
     Apollo.linkedinUrl := ada;
     Apollo.emailStatus := Some (JStr "verified") |}.

Definition twoContacts : list Apollo.contact :=
  [contactWith "ada@example.com"; contactWith "bob@example.com"].

(** The bulk upload is refused, the first single upload accepted, the second
    refused. *)
Definition bulkRefused : Smartlead.backend :=
  fun n _ =>
    match n with
    | 0 => Rejected (HttpError (Some 500%Z))
    | 1 => Resolved (Some (JObj [("ok", JBool true)]))
    | _ => Rejected (HttpError (Some 400%Z))
    end.

(** The bulk upload is accepted and reported as: none uploaded, two failed. *)
Definition nothingUploaded : Smartlead.backend :=
  fun _ _ => Resolved (Some (JObj [("ok", JBool true);
                                   ("upload_count", JNum 0);
                                   ("failed_count", JNum 2)])).

Definition postUrl : string := "https://linkedin.com/posts/foo-activity-123".


Definition authoredBy (u : string) : json :=
  JObj [("authorProfileUrl", JStr u)].

End Samples.

(* ================================================================== *)
(** ** Further notions used to state what the code does *)
(* ================================================================== *)

Module Observed.

(** The contacts of a list of URLs, in the order of the list, [settle u]
    being the request for [u] that is not rate limited. *)
Definition answers (be : Apollo.backend) (settle : string -> nat)
  (urls : list string) : list Apollo.contact :=
  Apollo.truthyResults
    (map (fun u => contact_of u (be u (settle u))) urls).

(** The [settle u]-th request for [u] is the first not to be rate limited,
    and the call reaches it within the fuel. *)
Definition settled (fuel : nat) (be : Apollo.backend)
  (settle : string -> nat) (u : string) : Prop :=
  settle u < fuel /\ settles_at be u (settle u).

(** Every request is answered with 429. *)
Definition alwaysLimited : Apollo.backend :=
  fun _ _ => Rejected (HttpError (Some 429%Z)).


Definition result_email (r : Smartlead.lead_result) : json :=
  match r with
  | Smartlead.Added e _ => e
  | Smartlead.Failed e _ => e
  end.



Definition nonempty (s : string) : bool := negb (String.eqb s EmptyString).

(** [filter nonempty] under a result. *)
Definition dropEmpty (r : result StrSet) : result StrSet :=
  match r with
  | Ok s => Ok (filter nonempty s)
  | Throw e => Throw e
  end.

(** A value without [null] and without a field named [toString], at any
    depth. *)
Fixpoint tame (v : json) : bool :=
  match v with
  | JNull => false
  | JBool _ | JNum _ | JStr _ => true
  | JArr items => forallb tame items
  | JObj fields =>
      match assoc "toString" fields with
      | Some _ => false
      | None => forallb (fun kv => tame (snd kv)) fields
      end
  end.

(** The only exception, if any, is a [TypeError]. *)
Definition only_type_error {A} (r : result A) : Prop :=
  forall e, r = Throw e -> e = TypeError.



(** The reply gives the run the status [s]. *)
Definition reports (s : string) (r : ApifyRun.reply) : bool :=
  match r with
  | ApifyRun.Replied data =>
      match ApifyRun.statusOf data with
      | ApifyRun.Done status => ApifyRun.statusIs s status
      | ApifyRun.Raise _ => false
      end
  | ApifyRun.Failed _ => false
  end.

(** The reply gives a status that does not end the wait. *)
Definition pending (r : ApifyRun.reply) : bool :=
  match r with
  | ApifyRun.Replied data =>
      match ApifyRun.statusOf data with
      | ApifyRun.Done status =>
          negb (ApifyRun.statusIs "SUCCEEDED" status)
          && match ApifyRun.terminal status with
             | Some _ => false
             | None => true
             end
      | ApifyRun.Raise _ => false
      end
  | ApifyRun.Failed _ => false
  end.

(** The reply to the start request gives a run with the identifier [rid]
    that has not succeeded yet. *)
Definition started (rid : string) (r : ApifyRun.reply) : Prop :=
  exists data run status,
    r = ApifyRun.Replied data /\
    ApifyRun.member data "data" = ApifyRun.Done run /\
    ApifyRun.member run "id" = ApifyRun.Done (Some (JStr rid)) /\
    ApifyRun.member run "status" = ApifyRun.Done status /\
    ApifyRun.statusIs "SUCCEEDED" status = false.

Definition startPath (actorId : string) : string :=
  "/acts/" ++ ApifyRun.encodeURIComponent actorId ++ "/runs".

(** [k] rounds of poll and sleep. *)
Fixpoint rounds (k : nat) (path : string) (ms : Z) : list ApifyRun.call :=
  match k with
  | O => []
  | S k' =>
      ApifyRun.Send "GET" path None :: ApifyRun.Wait ms :: rounds k' path ms
  end.

Fixpoint waits (t : list ApifyRun.call) : nat :=
  match t with
  | [] => 0
  | ApifyRun.Wait _ :: rest => S (waits rest)
  | ApifyRun.Send _ _ _ :: rest => waits rest
  end.


Definition runReply (status : string) : ApifyRun.reply :=
  ApifyRun.Replied
    (Some (JObj [("data", JObj [("id", JStr "r1");
                                ("status", JStr status);
                                ("defaultDatasetId", JStr "d1")])])).

(** A run that is [RUNNING] when started and at the first two polls, then
    [SUCCEEDED]; its dataset holds one post. *)
Definition slowRun : ApifyRun.server :=
  fun n path =>
    if startsWith "/datasets/" path
    then ApifyRun.Replied (Some (JArr [Samples.authoredBy Samples.ada]))
    else if (n <? 3)%nat then runReply "RUNNING" else runReply "SUCCEEDED".

(** A run that never leaves [RUNNING]. *)
Definition stuckRun : ApifyRun.server := fun _ _ => runReply "RUNNING".

(** An API that refuses every request with a message. *)
Definition refusing : ApifyRun.server :=
  fun _ _ =>
    ApifyRun.Failed
      {| ApifyRun.answered :=
           Some (Some (JObj [("error",
                              JObj [("message", JStr "Actor not found")])]));
         ApifyRun.text := "Request failed with status code 404" |}.

(** An environment with the seven required variables, one of them empty
    when [blank] says so. *)
Definition sampleEnv (blank : bool) : Boot.env :=
  fun v =>
    if String.eqb v "APOLLO_API_KEY" then Some (if blank then EmptyString else "k3")
    else if existsb (String.eqb v) Boot.requiredEnvVars then Some "x"
    else None.

Definition libsWork : Boot.libs := fun _ => Ok tt.

End Observed.

Import Observed.


(* ================================================================== *)
(** ** Facts about the string methods *)
(* ================================================================== *)

Section StringFacts.



Lemma split_nonempty (c : ascii) (s : string) : split c s <> [].
Proof.
  induction s as [|a s IH]; simpl; [discriminate|].
  destruct (Ascii.eqb a c); [discriminate|].
  destruct (split c s); [contradiction | discriminate].
Qed.

(** [split(c)[0]] is the part before the first [c]. *)
Lemma split_hd (c : ascii) (s : string) :
  hd EmptyString (split c s) = strip_from c s.
Proof.
  induction s as [|a s IH]; simpl; [reflexivity|].
  destruct (Ascii.eqb a c); [reflexivity|].
  pose proof (split_nonempty c s) as Hne.
  destruct (split c s) as [|piece pieces]; [contradiction|].
  simpl in *. now rewrite IH.
Qed.

Lemma run_to_end_cons (c a : ascii) (s : string) :
  run_to_end c (String a s) =
  Ascii.eqb a c && (match s with EmptyString => true | _ => run_to_end c s end).
Proof. destruct s; simpl; [now rewrite andb_true_r | reflexivity]. Qed.

Lemma replace_run_empty (c : ascii) (s : string) :
  replace_run_at_end c s = EmptyString <-> s = EmptyString \/ run_to_end c s = true.
Proof.
  destruct s as [|a s].
  - simpl. tauto.
  - cbn [replace_run_at_end]. destruct (run_to_end c (String a s)) eqn:E.
    + tauto.
    + split; [discriminate | intros [H|H]; discriminate].
Qed.

(** The regular-expression replacement strips the trailing run. *)
Lemma replace_run_strip (c : ascii) (s : string) :
  replace_run_at_end c s = strip_trailing c s.
Proof.
  induction s as [|a s IH]; [reflexivity|].
  cbn [replace_run_at_end strip_trailing]. rewrite <- IH.
  rewrite run_to_end_cons.
  destruct (replace_run_at_end c s) eqn:E.
  - apply replace_run_empty in E.
    destruct E as [-> | E].
    + rewrite andb_true_r. now destruct (Ascii.eqb a c).
    + rewrite E. destruct s; [discriminate|]. rewrite andb_true_r.
      now destruct (Ascii.eqb a c).
  - assert (Hs : s <> EmptyString /\ run_to_end c s = false).
    { split.
      - intros ->. discriminate.
      - destruct (run_to_end c s) eqn:R; [|reflexivity].
        assert (replace_run_at_end c s = EmptyString) by (apply replace_run_empty; auto).
        congruence. }
    destruct Hs as [Hne R]. rewrite R. destruct s; [contradiction|].
    now rewrite andb_false_r.
Qed.

Lemma strip_from_has (c : ascii) (s : string) :
  has_char c (strip_from c s) = false.
Proof.
  induction s as [|a s IH]; simpl; [reflexivity|].
  destruct (Ascii.eqb a c) eqn:E; simpl; [reflexivity|]. now rewrite E.
Qed.

Lemma strip_from_id (c : ascii) (s : string) :
  has_char c s = false -> strip_from c s = s.
Proof.
  induction s as [|a s IH]; simpl; [reflexivity|].
  intros H. apply orb_false_iff in H as [Ha Hs].
  rewrite Ha. now rewrite IH.
Qed.


Lemma strip_trailing_has (c d : ascii) (s : string) :
  has_char d s = false -> has_char d (strip_trailing c s) = false.
Proof.
  induction s as [|a s IH]; simpl; [reflexivity|].
  intros H. apply orb_false_iff in H as [Ha Hs]. specialize (IH Hs).
  destruct (strip_trailing c s); simpl in *.
  - destruct (Ascii.eqb a c); simpl; [reflexivity | now rewrite Ha].
  - now rewrite Ha.
Qed.

Lemma strip_trailing_ends (c : ascii) (s : string) :
  ends_with c (strip_trailing c s) = false.
Proof.
  induction s as [|a s IH]; simpl; [reflexivity|].
  destruct (strip_trailing c s) eqn:E.
  - destruct (Ascii.eqb a c) eqn:Ea; simpl; [reflexivity | exact Ea].
  - exact IH.
Qed.

Lemma strip_trailing_id (c : ascii) (s : string) :
  ends_with c s = false -> strip_trailing c s = s.
Proof.
  induction s as [|a s IH]; simpl; [reflexivity|].
  destruct s as [|b s].
  - simpl. intros ->. reflexivity.
  - intros H. rewrite (IH H). reflexivity.
Qed.







Lemma includes_nonempty (p : string) (s : string) :
  p <> EmptyString -> includes p s = true -> s <> EmptyString.
Proof. intros Hp H ->. destruct p; [contradiction | discriminate]. Qed.

(** [replace] on a string that starts with the pattern rewrites its head. *)
Lemma replace_at_head (p r s : string) :
  startsWith p s = true -> replace p r s = r ++ drop (String.length p) s.
Proof. intros H. destruct s; simpl; simpl in H; now rewrite H. Qed.

Lemma upgrade_http (rest : string) :
  upgrade ("http://" ++ rest) = "https://" ++ rest.
Proof. reflexivity. Qed.

Lemma startsWith_http_inv (s : string) :
  startsWith "http://" s = true -> exists rest, s = "http://" ++ rest.
Proof.
  intros H.
  do 7 (destruct s as [|? s]; [discriminate|];
        cbn [startsWith] in H; apply andb_true_iff in H as [?%Ascii.eqb_eq H];
        subst).
  now exists s.
Qed.

Lemma upgrade_other (s : string) :
  startsWith "http://" s = false -> upgrade s = s.
Proof.
  intros H. unfold upgrade.
  repeat match goal with
  | |- context [match ?x with _ => _ end] => destruct x; try reflexivity
  end.
  discriminate.
Qed.

End StringFacts.

(* ================================================================== *)
(** ** The normalizer *)
(* ================================================================== *)

Section Normalizer.

Import Apify.


(** On a string that contains [linkedin.com] the code computes the canonical
    form of the specification. *)
Lemma normalize_canonical (u : string) :
  includes "linkedin.com" u = true ->
  normalizeLinkedInUrl (Some (JStr u)) = Some (canonical u).
Proof.
  intros H. unfold normalizeLinkedInUrl, canonical.
  assert (Hu : u <> EmptyString) by (apply (includes_nonempty "linkedin.com"); [discriminate | exact H]).
  cbn [truthy]. apply String.eqb_neq in Hu. rewrite Hu, H. cbn [negb].
  rewrite split_hd, replace_run_strip.
  destruct (startsWith "http://" (strip_trailing "/" (strip_from "?" u))) eqn:E.
  - rewrite (replace_at_head _ _ _ E).
    apply startsWith_http_inv in E as [rest ->]. reflexivity.
  - now rewrite (upgrade_other _ E).
Qed.

Lemma normalize_reject (u : string) :
  includes "linkedin.com" u = false ->
  normalizeLinkedInUrl (Some (JStr u)) = None.
Proof.
  intros H. unfold normalizeLinkedInUrl. rewrite H.
  now destruct (negb (truthy (JStr u))).
Qed.

Lemma normalize_some_inv (v : option json) (r : string) :
  normalizeLinkedInUrl v = Some r ->
  exists u, v = Some (JStr u) /\ includes "linkedin.com" u = true /\
            r = canonical u.
Proof.
  intros H. destruct v as [[| | |u| |]|]; try discriminate.
  exists u. destruct (includes "linkedin.com" u) eqn:E.
  - rewrite (normalize_canonical _ E) in H. injection H as <-. auto.
  - rewrite (normalize_reject _ E) in H. discriminate.
Qed.

Lemma canonical_normal_form (u : string) : normal_form (canonical u).
Proof.
  unfold canonical.
  pose proof (strip_trailing_has "/" "?" _ (strip_from_has "?" u)) as Hq.
  pose proof (strip_trailing_ends "/" (strip_from "?" u)) as He.
  set (q := strip_trailing "/" (strip_from "?" u)) in *.
  destruct (startsWith "http://" q) eqn:E.
  - apply startsWith_http_inv in E as [rest Hrest]. rewrite Hrest in *.
    rewrite upgrade_http. destruct rest as [|a rest]; [discriminate|].
    split; [exact Hq | split; [exact He | reflexivity]].
  - rewrite (upgrade_other _ E). split; [|split]; assumption.
Qed.

Lemma canonical_fixed (r : string) : normal_form r -> canonical r = r.
Proof.
  intros (Hq & He & Hh). unfold canonical.
  now rewrite (strip_from_id _ _ Hq), (strip_trailing_id _ _ He),
    (upgrade_other _ Hh).
Qed.





End Normalizer.

(* ================================================================== *)
(** ** The engager extractor *)
(* ================================================================== *)

Lemma bind_ok {A B} (r : result A) (k : A -> result B) (b : B) :
  bind r k = Ok b -> exists a, r = Ok a /\ k a = Ok b.
Proof. destruct r as [a|e]; simpl; [eauto | discriminate]. Qed.

Lemma set_has_in (x : string) (s : StrSet) : set_has x s = true <-> In x s.
Proof.
  unfold set_has. rewrite existsb_exists. split.
  - intros (y & Hy & E). apply String.eqb_eq in E. now subst.
  - intros H. exists x. split; [exact H | apply String.eqb_refl].
Qed.



Lemma set_add_nodup (x : string) (s : StrSet) :
  NoDup s -> NoDup (set_add x s).
Proof.
  intros H. unfold set_add. destruct (set_has x s) eqn:E; [exact H|].
  assert (Hx : ~ In x s).
  { intros Hin. apply set_has_in in Hin. congruence. }
  clear E. induction H as [|y s Hy Hs IH]; simpl.
  - constructor; [intros [] | constructor].
  - constructor.
    + rewrite in_app_iff. intros [Hin | [<- | []]]; [contradiction|].
      apply Hx. now left.
    + apply IH. intros Hin. apply Hx. now right.
Qed.

Lemma set_add_forall (P : string -> Prop) (x : string) (s : StrSet) :
  P x -> Forall P s -> Forall P (set_add x s).
Proof.
  intros Hx Hs. unfold set_add. destruct (set_has x s); [exact Hs|].
  apply Forall_app. split; [exact Hs | now constructor].
Qed.

(** An invariant [Inv] of the set that every insertion of a string with
    property [Q] keeps, [Q] holding of whatever the extractor inserts, is
    kept by the extraction. *)
Section ExtractorInvariant.

Import Apify.

Variable Inv : StrSet -> Prop.
Variable Q : string -> Prop.
Hypothesis Q_normalized :
  forall v n, normalizeLinkedInUrl v = Some n -> Q n.
Hypothesis Q_template : forall id, Q (profileTemplate id).
Hypothesis Inv_add : forall x s, Q x -> Inv s -> Inv (set_add x s).

Lemma forEach_inv {A} (body : A -> StrSet -> result StrSet) (l : list A) :
  (forall x s s', body x s = Ok s' -> Inv s -> Inv s') ->
  forall s s', forEach body l s = Ok s' -> Inv s -> Inv s'.
Proof.
  intros Hbody. induction l as [|x l IH]; simpl; intros s s' H Hs.
  - now injection H as <-.
  - apply bind_ok in H as (s1 & H1 & H2). eauto.
Qed.

Lemma addUrlField_inv (v : option json) (s : StrSet) :
  Inv s -> Inv (addUrlField v s).
Proof.
  intros Hs. unfold addUrlField.
  destruct v as [[| | |u| |]|]; try exact Hs.
  destruct (truthy (JStr u) && includes "linkedin.com/in/" u); [|exact Hs].
  destruct (normalizeLinkedInUrl (Some (JStr u))) eqn:E; [|exact Hs].
  eauto.
Qed.

Lemma addUrlFields_inv (o : json) (s : StrSet) :
  Inv s -> Inv (addUrlFields o s).
Proof.
  unfold addUrlFields. generalize urlFields. intros fields. revert s.
  induction fields as [|f fields IH]; simpl; intros s Hs; [exact Hs|].
  apply IH. now apply addUrlField_inv.
Qed.

Lemma addIdentifier_inv (o : json) (k : string) (s s' : StrSet) :
  addIdentifier o k s = Ok s' -> Inv s -> Inv s'.
Proof.
  unfold addIdentifier. intros H Hs.
  destruct (get o k) as [id|]; [|now injection H as <-].
  destruct (truthy id); [|now injection H as <-].
  apply bind_ok in H as (str & _ & H). injection H as <-. auto.
Qed.

Lemma addNested_inv (item : json) (objName : string) (s s' : StrSet) :
  addNested item objName s = Ok s' -> Inv s -> Inv s'.
Proof.
  unfold addNested. intros H Hs.
  destruct (get item objName) as [o|]; [|now injection H as <-].
  destruct (truthy o && is_object o); [|now injection H as <-].
  apply bind_ok in H as (s1 & H1 & H).
  apply bind_ok in H as (s2 & H2 & H).
  eauto using addIdentifier_inv, addUrlFields_inv.
Qed.

Lemma extractUrlFromItem_inv (item : json) (s s' : StrSet) :
  extractUrlFromItem item s = Ok s' -> Inv s -> Inv s'.
Proof.
  unfold extractUrlFromItem. intros H Hs.
  destruct (negb (truthy item)); [now injection H as <-|].
  apply bind_ok in H as (s1 & H1 & H).
  apply bind_ok in H as (s2 & H2 & H).
  apply (addIdentifier_inv _ _ _ _ H).
  apply (addIdentifier_inv _ _ _ _ H2).
  apply (forEach_inv _ _ (addNested_inv item) _ _ H1).
  now apply addUrlFields_inv.
Qed.

Lemma extractComment_inv (comment : json) (s s' : StrSet) :
  extractComment comment s = Ok s' -> Inv s -> Inv s'.
Proof.
  unfold extractComment. intros H Hs.
  apply bind_ok in H as (s1 & H1 & H).
  apply bind_ok in H as (author & _ & H).
  pose proof (extractUrlFromItem_inv _ _ _ H1 Hs) as Hs1.
  destruct author as [a|]; [|now injection H as <-].
  destruct (truthy a); [|now injection H as <-].
  eauto using extractUrlFromItem_inv.
Qed.

Lemma forArray_inv (body : json -> StrSet -> result StrSet)
  (coll : option json) :
  (forall x s s', body x s = Ok s' -> Inv s -> Inv s') ->
  forall s s', forArray body coll s = Ok s' -> Inv s -> Inv s'.
Proof.
  intros Hbody s s' H Hs. unfold forArray in H.
  destruct coll as [[| | | |items|]|]; try (now injection H as <-).
  eauto using forEach_inv.
Qed.

Lemma extractPost_inv (post : json) (s s' : StrSet) :
  extractPost post s = Ok s' -> Inv s -> Inv s'.
Proof.
  unfold extractPost. intros H Hs.
  apply bind_ok in H as (author & _ & H).
  apply bind_ok in H as (s1 & H1 & H).
  apply bind_ok in H as (s2 & H2 & H).
  apply (forArray_inv _ _ extractUrlFromItem_inv _ _ H).
  apply (forArray_inv _ _ extractComment_inv _ _ H2).
  apply (forArray_inv _ _ extractUrlFromItem_inv _ _ H1).
  destruct (truthyU author); [|exact Hs].
  destruct (normalizeLinkedInUrl author) eqn:E; [|exact Hs].
  eauto.
Qed.

Lemma extractProfileUrls_inv (postData : list json) (urls : list string) :
  extractProfileUrls postData = Ok urls -> Inv [] -> Inv urls.
Proof.
  unfold extractProfileUrls. intros H H0.
  apply bind_ok in H as (_ & _ & H).
  exact (forEach_inv _ _ extractPost_inv _ _ H H0).
Qed.

End ExtractorInvariant.

Section Extractor.

Import Apify.

Lemma extractProfileUrls_nodup (postData : list json) (urls : list string) :
  extractProfileUrls postData = Ok urls -> NoDup urls.
Proof.
  intros H.
  apply (extractProfileUrls_inv (@NoDup string) (fun _ => True)) with postData;
    auto using set_add_nodup, NoDup_nil.
Qed.

Lemma extractProfileUrls_form (postData : list json) (urls : list string) :
  extractProfileUrls postData = Ok urls -> Forall extracted_form urls.
Proof.
  intros H.
  apply (extractProfileUrls_inv (Forall extracted_form) extracted_form)
    with postData; auto using set_add_forall.
  - intros v n Hn. left.
    apply normalize_some_inv in Hn as (u & _ & _ & ->).
    apply canonical_normal_form.
  - intros id. right. now exists id.
Qed.






End Extractor.

(* ================================================================== *)
(** ** Per-URL enrichment *)
(* ================================================================== *)

Section Enrichment.

Import Apollo.

Lemma enrichAttempt_some (url : string) (o : http_outcome) (c : contact) :
  enrichAttempt url o = Ok (Some c) ->
  verified o /\ truthy (email c) = true /\
  status_is (emailStatus c) "guessed" = false /\
  status_is (emailStatus c) "unavailable" = false /\
  linkedinUrl c = url.
Proof.
  unfold enrichAttempt. intros H.
  destruct o as [data|e]; [|discriminate]. cbn [await bind] in H.
  destruct data as [d|]; [|discriminate].
  destruct (prop d "person") as [person|] eqn:Ep; [|discriminate].
  cbn [bind] in H. destruct person as [person|]; [|discriminate].
  destruct (truthy person) eqn:Tp; cbn [negb] in H; [|discriminate].
  destruct (negb (truthyU (get person "email"))
            || status_is (get person "email_status") "guessed"
            || status_is (get person "email_status") "unavailable") eqn:Ec;
    [discriminate|].
  apply orb_false_iff in Ec as [Ec Hu]. apply orb_false_iff in Ec as [Te Hg].
  destruct (get person "email") as [e|] eqn:Ee; [|discriminate].
  injection H as <-. cbn [email emailStatus linkedinUrl].
  apply negb_false_iff in Te. cbn [truthyU] in Te.
  assert (Hp : get d "person" = Some person).
  { destruct d; simpl in Ep; try discriminate; now injection Ep. }
  repeat (split; [|]); auto.
  exists d, person, e. auto 10.
Qed.

Lemma enrichAttempt_of_verified (url : string) (o : http_outcome) :
  verified o -> exists c, enrichAttempt url o = Ok (Some c).
Proof.
  intros (d & person & e & -> & Hp & Tp & He & Te & Hg & Hu).
  unfold enrichAttempt. cbn [await bind].
  assert (Ep : prop d "person" = Ok (Some person)).
  { destruct d; simpl in Hp; try discriminate; simpl; now rewrite Hp. }
  rewrite Ep. cbn [bind]. rewrite Tp, He, Hg, Hu. cbn [truthyU negb orb].
  rewrite Te. cbn [negb orb]. eexists. reflexivity.
Qed.

Lemma enrichAttempt_resolved_throw (url : string) (data : option json) (e : exn) :
  enrichAttempt url (Resolved data) = Throw e -> e = TypeError.
Proof.
  unfold enrichAttempt. cbn [await bind]. intros H.
  destruct data as [d|]; [|now injection H].
  destruct d; cbn [prop bind] in H; try (now injection H);
    try discriminate.
  destruct (get (JObj fields) "person") as [person|]; [|discriminate].
  destruct (negb (truthy person)); [discriminate|].
  destruct (negb (truthyU (get person "email"))
            || status_is (get person "email_status") "guessed"
            || status_is (get person "email_status") "unavailable");
    [discriminate|].
  destruct (get person "email"); discriminate.
Qed.

Lemma attempt_rate_limited (url : string) (o : http_outcome) :
  rate_limited o = true ->
  exists e, o = Rejected e /\ enrichAttempt url o = Throw e /\
            has_status e 429 = true.
Proof. destruct o as [data|e]; [discriminate|]. intros H. now exists e. Qed.

Lemma attempt_not_limited (url : string) (o : http_outcome) (e : exn) :
  rate_limited o = false -> enrichAttempt url o = Throw e ->
  has_status e 429 = false.
Proof.
  destruct o as [data|e']; intros Hr H.
  - now rewrite (enrichAttempt_resolved_throw _ _ _ H).
  - simpl in H. injection H as <-. exact Hr.
Qed.

(** After [n] rate-limited answers the call returns what the next answer
    gives, having slept [n] times. *)
Lemma enrichProfile_settles (be : backend) (url : string) (n : nat) :
  forall fuel k,
    (forall j, j < n -> rate_limited (be url (k + j)) = true) ->
    rate_limited (be url (k + n)) = false ->
    n < fuel ->
    enrichProfile fuel be url k
    = Some (Ok (contact_of url (be url (k + n))),
            (retries n url ++ [matchRequest url])%list).
Proof.
  induction n as [|n IH]; intros fuel k Hlim Hlast Hfuel.
  - destruct fuel as [|fuel]; [lia|]. rewrite Nat.add_0_r in *.
    cbn [enrichProfile retries app]. unfold contact_of.
    destruct (enrichAttempt url (be url k)) as [r|e] eqn:E; [reflexivity|].
    now rewrite (attempt_not_limited _ _ _ Hlast E).
  - destruct fuel as [|fuel]; [lia|]. cbn [enrichProfile retries app].
    assert (H0 : rate_limited (be url k) = true).
    { rewrite <- (Nat.add_0_r k). apply Hlim. lia. }
    apply (attempt_rate_limited url) in H0 as (e & _ & E & He).
    rewrite E, He.
    rewrite (IH fuel (S k)).
    + now replace (S k + n) with (k + S n) by lia.
    + intros j Hj. replace (S k + j) with (k + S j) by lia. apply Hlim. lia.
    + now replace (S k + n) with (k + S n) by lia.
    + lia.
Qed.

(** A call that returns does not raise. *)
Lemma enrichProfile_no_raise (be : backend) (url : string) :
  forall fuel k r t,
    enrichProfile fuel be url k = Some (r, t) -> exists v, r = Ok v.
Proof.
  induction fuel as [|fuel IH]; intros k r t H; [discriminate|].
  cbn [enrichProfile] in H.
  destruct (enrichAttempt url (be url k)) as [v|e].
  - injection H as <- _. eauto.
  - destruct (has_status e 429).
    + destruct (enrichProfile fuel be url (S k)) as [[r' t']|] eqn:E;
        [|discriminate].
      injection H as <- _. eauto.
    + injection H as <- _. eauto.
Qed.

End Enrichment.

(* ================================================================== *)
(** ** Batching *)
(* ================================================================== *)

Section Batching.

Import Apollo.

Lemma pieces_nil (n w : nat) : pieces n w [] = [].
Proof. destruct n; reflexivity. Qed.

Lemma slice_window (i w : nat) (array : list string) :
  slice i (i + w) array = firstn w (skipn i array).
Proof. unfold slice. symmetry. apply firstn_skipn_comm. Qed.

Lemma ceil_div_step (m w : nat) :
  0 < w -> 0 < m -> ceil_div m w = S (ceil_div (m - w) w).
Proof.
  intros Hw Hm. unfold ceil_div.
  destruct (Nat.le_gt_cases m w) as [Hle|Hgt].
  - replace (m - w) with 0 by lia.
    rewrite (Nat.div_small (0 + w - 1) w) by lia.
    replace (m + w - 1) with ((m - 1) + 1 * w) by lia.
    rewrite Nat.div_add by lia. rewrite Nat.div_small by lia. reflexivity.
  - replace (m + w - 1) with ((m - w + w - 1) + 1 * w) by lia.
    rewrite Nat.div_add by lia. lia.
Qed.

Section Pieces.

Variable w : nat.
Hypothesis w_pos : 0 < w.

Lemma concat_pieces (n : nat) :
  forall l, length l <= n -> concat (pieces n w l) = l.
Proof.
  induction n as [|n IH]; intros l Hl.
  - destruct l; [reflexivity | simpl in Hl; lia].
  - destruct l as [|x l]; [reflexivity|].
    cbn [pieces concat]. rewrite IH.
    + apply firstn_skipn.
    + rewrite length_skipn. cbn [length] in *. lia.
Qed.

Lemma length_pieces (n : nat) :
  forall l, length l <= n -> length (pieces n w l) = ceil_div (length l) w.
Proof.
  induction n as [|n IH]; intros l Hl.
  - destruct l; [|simpl in Hl; lia]. simpl. unfold ceil_div.
    symmetry. apply Nat.div_small. lia.
  - destruct l as [|x l].
    + simpl. unfold ceil_div. symmetry. apply Nat.div_small. lia.
    + cbn [pieces length]. rewrite IH.
      * rewrite length_skipn. symmetry. apply ceil_div_step; cbn [length]; lia.
      * rewrite length_skipn. cbn [length] in *. lia.
Qed.

Lemma pieces_sizes (n : nat) :
  forall l, Forall (fun p => 0 < length p <= w) (pieces n w l).
Proof.
  induction n as [|n IH]; intros l; [constructor|].
  destruct l as [|x l]; [constructor|].
  cbn [pieces]. constructor; [|apply IH].
  rewrite length_firstn. cbn [length]. lia.
Qed.

Lemma pieces_full (n : nat) :
  forall l i, S i < length (pieces n w l) ->
              length (nth i (pieces n w l) []) = w.
Proof.
  induction n as [|n IH]; intros l i Hi; [simpl in Hi; lia|].
  destruct l as [|x l]; [simpl in Hi; lia|].
  cbn [pieces] in *. cbn [length] in Hi.
  destruct i as [|i]; cbn [nth].
  - destruct (skipn w (x :: l)) as [|y rest] eqn:Es.
    + rewrite pieces_nil in Hi. simpl in Hi. lia.
    + assert (Hlen : length (skipn w (x :: l)) = S (length rest))
        by now rewrite Es.
      rewrite length_skipn in Hlen. rewrite length_firstn. lia.
  - apply IH. lia.
Qed.

End Pieces.

Lemma map_elems_tag (ps : list (list string)) :
  forall k, map elems (tag k ps) = ps.
Proof. induction ps as [|p ps IH]; intros k; simpl; [|rewrite IH]; auto. Qed.

Lemma map_ref_tag (ps : list (list string)) :
  forall k, map ref (tag k ps) = seq k (length ps).
Proof. induction ps as [|p ps IH]; intros k; simpl; [|rewrite IH]; auto. Qed.

(** The loop of [chunkArray] ends, when the width is positive, with the
    consecutive pieces of what is left of the array. *)
Lemma chunkLoop_pieces (array : list string) (w : nat) :
  0 < w ->
  forall fuel i acc n,
    length array - i < fuel -> length array - i <= n ->
    chunkLoop fuel array w i acc
    = Some (acc ++ tag (length acc) (pieces n w (skipn i array)))%list.
Proof.
  intros Hw. induction fuel as [|fuel IH]; intros i acc n Hf Hn; [lia|].
  cbn [chunkLoop]. destruct (i <? length array)%nat eqn:E.
  - apply Nat.ltb_lt in E. destruct n as [|n]; [lia|].
    rewrite (IH (i + w) _ n) by lia.
    cbn [pieces]. destruct (skipn i array) as [|x rest] eqn:Es.
    + assert (Hlen : length (skipn i array) = 0) by now rewrite Es.
      rewrite length_skipn in Hlen. lia.
    + rewrite <- Es, slice_window, <- app_assoc. cbn [app tag].
      rewrite length_app, Nat.add_1_r, skipn_skipn.
      now rewrite (Nat.add_comm w i).
  - apply Nat.ltb_ge in E. rewrite skipn_all2 by exact E.
    rewrite pieces_nil. cbn [tag]. now rewrite app_nil_r.
Qed.

Lemma chunkArray_batches (fuel : nat) (array : list string) (w : nat) :
  0 < w -> length array < fuel ->
  chunkArray fuel array w = Some (tag 0 (batches_of w array)).
Proof.
  intros Hw Hf. unfold chunkArray, batches_of.
  rewrite (chunkLoop_pieces array w Hw fuel 0 [] (length array)) by lia.
  reflexivity.
Qed.

(** Arrays being compared by identity, [indexOf] finds a batch where it
    stands. *)
Lemma indexOf_position (pre post : list chunk) (b : chunk) :
  NoDup (map ref (pre ++ b :: post)) ->
  indexOf b (pre ++ b :: post) = Z.of_nat (length pre).
Proof.
  induction pre as [|a pre IH]; intros Hnd.
  - simpl. now rewrite Nat.eqb_refl.
  - cbn [app indexOf length]. cbn [app map] in Hnd.
    inversion Hnd as [|? ? Ha Hrest]; subst.
    destruct (ref a =? ref b)%nat eqn:E.
    + apply Nat.eqb_eq in E. exfalso. apply Ha. rewrite map_app, in_app_iff.
      right. left. now symmetry.
    + rewrite (IH Hrest). destruct (Z.of_nat (length pre) <? 0)%Z eqn:Ez.
      * apply Z.ltb_lt in Ez. lia.
      * lia.
Qed.

(** *** The trace of waves *)

Lemma paced_more (ms : Z) (w w' : wave_event) (l : list wave_event) :
  paced ms (w :: w' :: l) = w :: Delay ms :: paced ms (w' :: l).
Proof. reflexivity. Qed.

Lemma dispatched_paced (ms : Z) (callss : list (list (string * list io))) :
  dispatched (paced ms (map Wave callss)) = map (map fst) callss.
Proof.
  induction callss as [|c [|c' callss] IH]; [reflexivity | reflexivity |].
  change (map Wave (c :: c' :: callss))
    with (Wave c :: Wave c' :: map Wave callss).
  rewrite paced_more. cbn [dispatched].
  change (Wave c' :: map Wave callss) with (map Wave (c' :: callss)).
  now rewrite IH.
Qed.

Lemma count_delays_paced (ms : Z) (callss : list (list (string * list io))) :
  count_delays (paced ms (map Wave callss)) = length callss - 1.
Proof.
  induction callss as [|c [|c' callss] IH]; [reflexivity | reflexivity |].
  change (map Wave (c :: c' :: callss))
    with (Wave c :: Wave c' :: map Wave callss).
  rewrite paced_more. cbn [count_delays].
  change (Wave c' :: map Wave callss) with (map Wave (c' :: callss)).
  rewrite IH. cbn [length]. lia.
Qed.

Lemma ends_in_delay_paced (ms : Z) (callss : list (list (string * list io))) :
  ends_in_delay (paced ms (map Wave callss)) = false.
Proof.
  unfold ends_in_delay.
  assert (H : forall l, match rev (paced ms (map Wave l)) with
                        | [] => l = []
                        | Wave _ :: _ => True
                        | Delay _ :: _ => False
                        end).
  { induction l as [|c [|c' l] IH]; [reflexivity | exact I |].
    change (map Wave (c :: c' :: l)) with (Wave c :: Wave c' :: map Wave l).
    rewrite paced_more.
    change (Wave c' :: map Wave l) with (map Wave (c' :: l)).
    cbn [rev].
    destruct (rev (paced ms (map Wave (c' :: l)))) as [|[calls|d] r];
      [discriminate IH | exact I | contradiction]. }
  specialize (H callss).
  destruct (rev (paced ms (map Wave callss))) as [|[calls|d] r];
    [reflexivity | reflexivity | contradiction].
Qed.

Lemma map_fst_combine {A B} (l : list A) (l' : list B) :
  length l = length l' -> map fst (combine l l') = l.
Proof.
  revert l'. induction l as [|a l IH]; intros [|b l'] H; simpl in *;
    try reflexivity; try discriminate.
  f_equal. apply IH. lia.
Qed.

Section Waves.

Variables (fuel : nat) (be : backend).

Lemma mapEnrich_live (batch : list string) :
  (forall u, In u batch -> live fuel be u) ->
  exists rs results,
    mapEnrich fuel be batch = Some rs /\ length rs = length batch /\
    promiseAll (map fst rs) = Ok results.
Proof.
  induction batch as [|u batch IH]; intros Hlive.
  - exists [], []. auto.
  - destruct IH as (rs & results & Hrs & Hlen & Hall);
      [intros; apply Hlive; now right|].
    destruct (Hlive u (or_introl eq_refl)) as (n & Hn & Hlim & Hlast).
    cbn [mapEnrich].
    rewrite (enrichProfile_settles be u n fuel 0) by (simpl; auto).
    rewrite Hrs. eexists. eexists. split; [reflexivity|].
    cbn [length map fst promiseAll bind]. rewrite Hall. cbn [bind].
    split; [now rewrite Hlen | reflexivity].
Qed.

(** The loop over the batches: a wave per batch, a pause after each but the
    last. *)
Lemma batchLoop_paced (batches : list chunk) (delayMs : Z) :
  NoDup (map ref batches) ->
  forall todo pre enrichedContacts,
    batches = (pre ++ todo)%list ->
    (forall b u, In b todo -> In u (elems b) -> live fuel be u) ->
    exists contacts callss,
      batchLoop fuel be batches todo delayMs enrichedContacts
      = Some (Ok contacts, paced delayMs (map Wave callss)) /\
      map (map fst) callss = map elems todo.
Proof.
  intros Hnd. induction todo as [|batch rest IH];
    intros pre enrichedContacts Hsplit Hlive.
  - exists enrichedContacts, []. auto.
  - destruct (mapEnrich_live (elems batch)) as (rs & results & Hrs & Hlen & Hall);
      [intros u Hu; apply (Hlive batch u); [now left | exact Hu]|].
    cbn [batchLoop]. rewrite Hrs, Hall.
    destruct (IH (pre ++ [batch])%list
                (enrichedContacts ++ truthyResults results)%list)
      as (contacts & callss & Hloop & Hwaves).
    { now rewrite <- app_assoc. }
    { intros b u Hb. apply Hlive. now right. }
    rewrite Hloop.
    exists contacts, (combine (elems batch) (map snd rs) :: callss).
    split.
    + rewrite Hsplit in Hnd |- *.
      rewrite (indexOf_position pre rest batch Hnd).
      rewrite length_app. cbn [length].
      destruct rest as [|b' rest'].
      * destruct callss; [|discriminate].
        match goal with
        | |- context [(?a <? ?b)%Z] => destruct (a <? b)%Z eqn:Ez
        end; [apply Z.ltb_lt in Ez; cbn [length] in Ez; lia | reflexivity].
      * destruct callss as [|c callss]; [discriminate|].
        match goal with
        | |- context [(?a <? ?b)%Z] => destruct (a <? b)%Z eqn:Ez
        end; [reflexivity | apply Z.ltb_ge in Ez; cbn [length] in Ez; lia].
    + cbn [map]. rewrite Hwaves. f_equal.
      apply map_fst_combine. now rewrite length_map.
Qed.

End Waves.

End Batching.

(* ================================================================== *)
(** ** Batches never abort *)
(* ================================================================== *)

Section NoRaise.

Import Apollo.

Lemma mapEnrich_no_raise (fuel : nat) (be : backend) (batch : list string) :
  forall rs, mapEnrich fuel be batch = Some rs ->
             exists results, promiseAll (map fst rs) = Ok results.
Proof.
  induction batch as [|u batch IH]; intros rs H.
  - injection H as <-. now exists [].
  - cbn [mapEnrich] in H.
    destruct (enrichProfile fuel be u 0) as [[r t]|] eqn:E; [|discriminate].
    destruct (mapEnrich fuel be batch) as [rs'|]; [|discriminate].
    injection H as <-.
    destruct (enrichProfile_no_raise _ _ _ _ _ _ E) as (v & ->).
    destruct (IH rs' eq_refl) as (results & Hres).
    cbn [map fst promiseAll bind]. rewrite Hres. now eexists.
Qed.

Lemma batchLoop_no_raise (fuel : nat) (be : backend) (batches : list chunk)
  (delayMs : Z) :
  forall todo enrichedContacts r t,
    batchLoop fuel be batches todo delayMs enrichedContacts = Some (r, t) ->
    exists contacts, r = Ok contacts.
Proof.
  induction todo as [|batch rest IH]; intros acc r t H.
  - injection H as <- _. eauto.
  - cbn [batchLoop] in H.
    destruct (mapEnrich fuel be (elems batch)) as [rs|] eqn:E; [|discriminate].
    destruct (mapEnrich_no_raise _ _ _ _ E) as (results & Hres).
    rewrite Hres in H.
    destruct (batchLoop fuel be batches rest delayMs
                (acc ++ truthyResults results)) as [[r' t']|] eqn:El;
      [|discriminate].
    injection H as <- _. eauto.
Qed.

Lemma enrichProfiles_no_raise (fuel : nat) (be : backend)
  (urls : list string) (w : nat) (delayMs : Z) r t :
  enrichProfiles fuel be urls w delayMs = Some (r, t) ->
  exists contacts, r = Ok contacts.
Proof.
  unfold enrichProfiles. destruct (chunkArray fuel urls w); [|discriminate].
  apply batchLoop_no_raise.
Qed.

(** One URL makes one wave, and no pause. *)
Lemma enrichProfiles_single (fuel : nat) (be : backend) (url : string)
  (w : nat) (delayMs : Z) r t :
  0 < w -> 1 < fuel ->
  enrichProfile fuel be url 0 = Some (Ok r, t) ->
  enrichProfiles fuel be [url] w delayMs
  = Some (Ok (match r with Some c => [c] | None => [] end),
          [Wave [(url, t)]]).
Proof.
  intros Hw Hf H. unfold enrichProfiles.
  rewrite chunkArray_batches by (cbn [length]; lia).
  destruct w as [|w]; [lia|].
  cbn [batches_of length pieces firstn skipn tag batchLoop elems mapEnrich].
  rewrite firstn_nil, H.
  cbn [map fst snd promiseAll bind combine app truthyResults indexOf ref
       length].
  rewrite Nat.eqb_refl. cbn. now destruct r.
Qed.

End NoRaise.

(* ================================================================== *)
(** ** Delivery *)
(* ================================================================== *)

Section Delivery.

Import Smartlead.

Lemma count_total (rs : list lead_result) :
  count_success rs + count_failure rs = length rs.
Proof.
  unfold count_success, count_failure.
  induction rs as [|r rs IH]; [reflexivity|].
  cbn [filter]. destruct (success r); cbn [negb length]; lia.
Qed.

Lemma length_outcomes (be : backend) (ls : list lead) :
  forall n, length (outcomes be n ls) = length ls.
Proof. induction ls as [|l ls IH]; intros n; simpl; [|rewrite IH]; auto. Qed.

(** The fallback loop: one upload per lead, every lead counted once. *)
Lemma individualLoop_outcomes (be : backend) (todo : list lead) :
  forall n a f rs,
    individualLoop be n todo a f rs
    = ((a + count_success (outcomes be n todo),
        f + count_failure (outcomes be n todo),
        (rs ++ outcomes be n todo)%list),
       one_by_one todo).
Proof.
  induction todo as [|l todo IH]; intros n a f rs.
  - cbn. now rewrite !Nat.add_0_r, app_nil_r.
  - cbn [individualLoop outcomes one_by_one].
    destruct (await (be n [l])) as [data|e]; rewrite IH;
      unfold count_success, count_failure; cbn [filter success negb length];
      rewrite <- app_assoc; cbn [app];
      (apply f_equal2; [|reflexivity]);
      (apply f_equal2; [|reflexivity]);
      apply f_equal2; lia.
Qed.

Lemma addLeadsIndividually_outcomes (be : backend) (n : nat) (ls : list lead) :
  addLeadsIndividually be n ls
  = (Ok {| added := JNum (Z.of_nat (count_success (outcomes be n ls)));
           failed := JNum (Z.of_nat (count_failure (outcomes be n ls)));
           leads := Some (outcomes be n ls);
           response := None |},
     one_by_one ls).
Proof.
  unfold addLeadsIndividually. now rewrite individualLoop_outcomes.
Qed.


End Delivery.

(* ================================================================== *)
(** ** The normalizer and the extractor: the stated properties *)
(* ================================================================== *)

Section ApifyProperties.

Import Apify.

(** C3.  The three spellings of the specification's example normalize to
    [https://linkedin.com/in/a].  On every string that contains
    [linkedin.com] the normalizer strips everything from the first [?]
    onward, then the trailing [/] characters, then upgrades an [http://]
    prefix to [https://].  [undefined], [null], every value that is not a
    string, the empty string and every string without [linkedin.com] are
    rejected. *)
Theorem normalizer_contract :
  normalizeLinkedInUrl (Some (JStr "http://linkedin.com/in/a/"))
    = Some "https://linkedin.com/in/a" /\
  normalizeLinkedInUrl (Some (JStr "https://linkedin.com/in/a?trk=x"))
    = Some "https://linkedin.com/in/a" /\
  normalizeLinkedInUrl (Some (JStr "https://linkedin.com/in/a"))
    = Some "https://linkedin.com/in/a" /\
  (forall u, includes "linkedin.com" u = true ->
     normalizeLinkedInUrl (Some (JStr u))
     = Some (upgrade (strip_trailing "/" (strip_from "?" u)))) /\
  normalizeLinkedInUrl None = None /\
  normalizeLinkedInUrl (Some JNull) = None /\
  (forall v, (forall u, v <> JStr u) -> normalizeLinkedInUrl (Some v) = None) /\
  normalizeLinkedInUrl (Some (JStr EmptyString)) = None /\
  (forall u, includes "linkedin.com" u = false ->
     normalizeLinkedInUrl (Some (JStr u)) = None).
Proof.
  repeat (split; [reflexivity|]).
  split; [exact normalize_canonical|].
  repeat (split; [reflexivity|]).
  split.
  - intros v Hv. destruct v; try reflexivity. now destruct (Hv s).
  - split; [reflexivity | exact normalize_reject].
Qed.

Lemma normalizer_contract_witness :
  includes "linkedin.com" "http://www.linkedin.com/in/ada//?trk=feed" = true /\
  normalizeLinkedInUrl (Some (JStr "http://www.linkedin.com/in/ada//?trk=feed"))
  = Some (upgrade (strip_trailing "/"
            (strip_from "?" "http://www.linkedin.com/in/ada//?trk=feed"))) /\
  (forall u, JNum 7 <> JStr u) /\
  normalizeLinkedInUrl (Some (JNum 7)) = None /\
  includes "linkedin.com" "https://example.com/in/ada" = false /\
  normalizeLinkedInUrl (Some (JStr "https://example.com/in/ada")) = None.
Proof.
  destruct normalizer_contract as (_ & _ & _ & Hin & _ & _ & Hv & _ & Hout).
  split; [reflexivity|].
  split; [apply Hin; reflexivity|].
  split; [intros u; discriminate|].
  split; [apply Hv; intros u; discriminate|].
  split; [reflexivity | apply Hout; reflexivity].
Defined.

(** C10, as amended.  When the normalizer returns a string [r] that still
    contains [linkedin.com], normalizing [r] returns [r]; when [r] no longer
    contains it, normalizing [r] returns [null]. *)
Theorem normalize_idempotent_on_linkedin (u r : string) :
  normalizeLinkedInUrl (Some (JStr u)) = Some r ->
  (includes "linkedin.com" r = true ->
   normalizeLinkedInUrl (Some (JStr r)) = Some r) /\
  (includes "linkedin.com" r = false ->
   normalizeLinkedInUrl (Some (JStr r)) = None).
Proof.
  intros H. apply normalize_some_inv in H as (u' & _ & _ & ->). split.
  - intros Hin. rewrite (normalize_canonical _ Hin). f_equal.
    apply canonical_fixed, canonical_normal_form.
  - apply normalize_reject.
Qed.

Lemma normalize_idempotent_on_linkedin_witness :
  normalizeLinkedInUrl (Some (JStr "http://linkedin.com/in/a/?trk=x"))
    = Some "https://linkedin.com/in/a" /\
  includes "linkedin.com" "https://linkedin.com/in/a" = true /\
  normalizeLinkedInUrl (Some (JStr "https://linkedin.com/in/a"))
    = Some "https://linkedin.com/in/a".
Proof.
  split; [reflexivity|]. split; [reflexivity|].
  apply (normalize_idempotent_on_linkedin "http://linkedin.com/in/a/?trk=x");
    reflexivity.
Defined.

(** C10, as stated, fails: a URL that has [linkedin.com] only in its query
    string is accepted, and its normalized form is then rejected. *)
Lemma normalize_not_idempotent :
  normalizeLinkedInUrl (Some (JStr "https://example.com/jobs?ref=linkedin.com"))
    = Some "https://example.com/jobs" /\
  normalizeLinkedInUrl (Some (JStr "https://example.com/jobs")) = None /\
  ~ (forall u r, normalizeLinkedInUrl (Some (JStr u)) = Some r ->
                 normalizeLinkedInUrl (Some (JStr r)) = Some r).
Proof.
  split; [reflexivity|]. split; [reflexivity|].
  intros H.
  specialize (H "https://example.com/jobs?ref=linkedin.com"
                "https://example.com/jobs" eq_refl).
  discriminate H.
Qed.






End ApifyProperties.

(* ================================================================== *)
(** ** Enrichment: the stated properties *)
(* ================================================================== *)

Section ApolloProperties.

Import Apollo.

(** C2.  A per-URL enrichment call whose [n]-th request is the first not to
    be rate limited returns a contact if and only if the answer to that
    request holds a person with a non-empty email whose status is neither
    [guessed] nor [unavailable].  Every contact returned has a non-empty
    email, a status that is neither of the two, and the URL asked for.  The
    batcher, run on that URL alone, yields exactly that one contact, or
    none. *)
Theorem enrichment_filter (be : backend) (url : string) (n fuel : nat) :
  settles_at be url n -> n < fuel ->
  exists r t,
    enrichProfile fuel be url 0 = Some (Ok r, t) /\
    ((exists c, r = Some c) <-> verified (be url n)) /\
    (forall c, r = Some c ->
       truthy (email c) = true /\
       (forall s, email c = JStr s -> s <> EmptyString) /\
       status_is (emailStatus c) "guessed" = false /\
       status_is (emailStatus c) "unavailable" = false /\
       linkedinUrl c = url) /\
    (forall w delayMs, 0 < w -> 1 < fuel ->
       enrichProfiles fuel be [url] w delayMs
       = Some (Ok (match r with Some c => [c] | None => [] end),
               [Wave [(url, t)]])).
Proof.
  intros [Hlim Hlast] Hfuel.
  pose proof (enrichProfile_settles be url n fuel 0 Hlim Hlast Hfuel) as Hrun.
  cbn [Nat.add] in Hrun.
  exists (contact_of url (be url n)), (retries n url ++ [matchRequest url])%list.
  split; [exact Hrun|]. split; [|split].
  - unfold contact_of. split.
    + intros (c & Hc).
      destruct (enrichAttempt url (be url n)) as [r|e] eqn:E; [|discriminate].
      subst r. now apply enrichAttempt_some in E.
    + intros Hv. destruct (enrichAttempt_of_verified url _ Hv) as (c & ->).
      now exists c.
  - intros c Hc. unfold contact_of in Hc.
    destruct (enrichAttempt url (be url n)) as [r|e] eqn:E; [|discriminate].
    subst r. apply enrichAttempt_some in E as (_ & Ht & Hg & Hu & Hl).
    repeat (split; [|]); auto.
    intros s Hs ->. rewrite Hs in Ht. discriminate Ht.
  - intros w delayMs Hw Hf. now apply enrichProfiles_single.
Qed.

Lemma enrichment_filter_witness :
  exists r t,
    enrichProfile 3 Samples.throttled Samples.ada 0 = Some (Ok r, t) /\
    ((exists c, r = Some c)
     <-> verified (Samples.throttled Samples.ada 2)) /\
    (forall c, r = Some c ->
       truthy (email c) = true /\
       (forall s, email c = JStr s -> s <> EmptyString) /\
       status_is (emailStatus c) "guessed" = false /\
       status_is (emailStatus c) "unavailable" = false /\
       linkedinUrl c = Samples.ada) /\
    (forall w delayMs, 0 < w -> 1 < 3 ->
       enrichProfiles 3 Samples.throttled [Samples.ada] w delayMs
       = Some (Ok (match r with Some c => [c] | None => [] end),
               [Wave [(Samples.ada, t)]])).
Proof.
  apply (enrichment_filter Samples.throttled Samples.ada 2 3); [|lia].
  split; [|reflexivity].
  intros k Hk. destruct k as [|[|k]]; [reflexivity | reflexivity | lia].
Defined.

(** An answer whose status is [guessed] gives no contact for the URL. *)
Example guessed_yields_none :
  enrichProfiles 2 Samples.guessing [Samples.ada] 5 1000
  = Some (Ok [], [Wave [(Samples.ada, [matchRequest Samples.ada])]]).
Proof. reflexivity. Qed.

(** C7.  When the backend answers a request with status 429, the call sleeps
    5000ms and then does what a call for the same URL does.  When the request
    fails in any other way the call returns [null].  So, after [n]
    rate-limited answers the call has slept [n] times and returns what the
    next answer gives.  A call that returns does not raise, and neither does
    the batcher. *)
Theorem rate_limit_retry (be : backend) (url : string) :
  (forall fuel k e,
     be url k = Rejected e -> has_status e 429 = true ->
     enrichProfile (S fuel) be url k
     = match enrichProfile fuel be url (S k) with
       | Some (r, t) => Some (r, matchRequest url :: Sleep 5000 :: t)
       | None => None
       end) /\
  (forall fuel k e,
     enrichAttempt url (be url k) = Throw e -> has_status e 429 = false ->
     enrichProfile (S fuel) be url k = Some (Ok None, [matchRequest url])) /\
  (forall n fuel,
     settles_at be url n -> n < fuel ->
     enrichProfile fuel be url 0
     = Some (Ok (contact_of url (be url n)),
             (retries n url ++ [matchRequest url])%list)) /\
  (forall fuel k r t,
     enrichProfile fuel be url k = Some (r, t) -> exists v, r = Ok v) /\
  (forall fuel urls w delayMs r t,
     enrichProfiles fuel be urls w delayMs = Some (r, t) ->
     exists contacts, r = Ok contacts).
Proof.
  split; [|split; [|split; [|split]]].
  - intros fuel k e Hk He. cbn [enrichProfile]. rewrite Hk.
    cbn [enrichAttempt await bind]. now rewrite He.
  - intros fuel k e Hk He. cbn [enrichProfile]. now rewrite Hk, He.
  - intros n fuel [Hlim Hlast] Hfuel.
    exact (enrichProfile_settles be url n fuel 0 Hlim Hlast Hfuel).
  - apply enrichProfile_no_raise.
  - intros fuel urls w delayMs r t. apply enrichProfiles_no_raise.
Qed.

Lemma rate_limit_retry_witness :
  enrichProfile 3 Samples.throttled Samples.ada 0
  = match enrichProfile 2 Samples.throttled Samples.ada 1 with
    | Some (r, t) =>
        Some (r, matchRequest Samples.ada :: Sleep 5000 :: t)
    | None => None
    end /\
  enrichProfile 1 Samples.unreachable Samples.ada 0
  = Some (Ok None, [matchRequest Samples.ada]).
Proof.
  split.
  - apply (proj1 (rate_limit_retry Samples.throttled Samples.ada)
             2 0 (HttpError (Some 429%Z))); reflexivity.
  - apply (proj1 (proj2 (rate_limit_retry Samples.unreachable Samples.ada))
             0 0 (Error "ECONNRESET")); reflexivity.
Defined.

(** C4.  For a positive width [w], and calls that all return, the batcher
    returns, and the waves it dispatched are consecutive batches of the
    input: their concatenation is the input, there are [ceil(n/w)] of them,
    every batch but the last has exactly [w] URLs and none is empty or longer
    than [w].  The array [chunkArray] returns holds those batches.  The trace
    is the waves with one pause between each two: [ceil(n/w) - 1] pauses, none
    after the last wave.  Twelve URLs at width 5 make waves of 5, 5 and 2
    with two pauses. *)
Theorem enrichment_batching (be : backend) (urls : list string) (w : nat)
  (delayMs : Z) (fuel : nat) :
  0 < w -> length urls < fuel ->
  (forall u, In u urls -> live fuel be u) ->
  exists contacts trace chunks,
    enrichProfiles fuel be urls w delayMs = Some (Ok contacts, trace) /\
    chunkArray fuel urls w = Some chunks /\
    map elems chunks = dispatched trace /\
    concat (dispatched trace) = urls /\
    length (dispatched trace) = ceil_div (length urls) w /\
    (forall i, S i < length (dispatched trace) ->
               length (nth i (dispatched trace) []) = w) /\
    Forall (fun b => 0 < length b <= w) (dispatched trace) /\
    (exists callss, trace = paced delayMs (map Wave callss)) /\
    count_delays trace = ceil_div (length urls) w - 1 /\
    ends_in_delay trace = false /\
    (length urls = 12 -> w = 5 ->
     map (@length string) (dispatched trace) = [5; 5; 2] /\
     count_delays trace = 2).
Proof.
  intros Hw Hfuel Hlive.
  pose proof (chunkArray_batches fuel urls w Hw Hfuel) as Hchunks.
  pose proof (concat_pieces w Hw (length urls) urls (le_n _)) as Hcat.
  pose proof (length_pieces w Hw (length urls) urls (le_n _)) as Hcount.
  fold (batches_of w urls) in Hcat, Hcount.
  destruct (batchLoop_paced fuel be (tag 0 (batches_of w urls)) delayMs)
    with (todo := tag 0 (batches_of w urls)) (pre := @nil chunk)
         (enrichedContacts := @nil contact)
    as (contacts & callss & Hloop & Hwaves).
  { rewrite map_ref_tag. apply seq_NoDup. }
  { reflexivity. }
  { intros b u Hb Hu. apply Hlive. rewrite <- Hcat. apply in_concat.
    exists (elems b). split; [|exact Hu].
    rewrite <- (map_elems_tag (batches_of w urls) 0). now apply in_map. }
  rewrite map_elems_tag in Hwaves.
  exists contacts, (paced delayMs (map Wave callss)),
    (tag 0 (batches_of w urls)).
  assert (Hdisp : dispatched (paced delayMs (map Wave callss))
                  = batches_of w urls)
    by now rewrite dispatched_paced.
  assert (Hdelays : count_delays (paced delayMs (map Wave callss))
                    = ceil_div (length urls) w - 1).
  { rewrite count_delays_paced, <- Hcount, <- Hwaves.
    now rewrite length_map. }
  rewrite Hdisp.
  split. { unfold enrichProfiles. now rewrite Hchunks. }
  split; [exact Hchunks|].
  split; [apply map_elems_tag|].
  split; [exact Hcat|].
  split; [exact Hcount|].
  split. { intros i Hi. now apply pieces_full. }
  split. { now apply pieces_sizes. }
  split. { now exists callss. }
  split; [exact Hdelays|].
  split; [apply ends_in_delay_paced|].
  intros H12 ->. split.
  - unfold batches_of. rewrite H12.
    do 12 (destruct urls as [|? urls]; [discriminate H12|]).
    destruct urls; [reflexivity | discriminate H12].
  - rewrite Hdelays, H12. reflexivity.
Qed.

Lemma enrichment_batching_witness :
  exists contacts trace,
    enrichProfiles 13 Samples.unreachable Samples.twelve 5 1000
    = Some (Ok contacts, trace) /\
    map (@length string) (dispatched trace) = [5; 5; 2] /\
    concat (dispatched trace) = Samples.twelve /\
    count_delays trace = 2 /\
    ends_in_delay trace = false.
Proof.
  destruct (enrichment_batching Samples.unreachable Samples.twelve 5 1000 13)
    as (contacts & trace & chunks & Hrun & _ & _ & Hcat & _ & _ & _ & _ & _
        & Hend & H12).
  - lia.
  - cbn [Samples.twelve length]. lia.
  - intros u _. exists 0. split; [lia|].
    split; [intros k Hk; lia | reflexivity].
  - exists contacts, trace.
    destruct (H12 eq_refl eq_refl) as [Hsizes Hdelays]. auto.
Defined.

End ApolloProperties.

(* ================================================================== *)
(** ** Delivery: the stated properties *)
(* ================================================================== *)

Section SmartleadProperties.

Import Smartlead.

(** C5.  For a non-empty list of contacts, when the bulk submission raises,
    [addLeads] does not raise: after the bulk upload it makes exactly one
    upload per contact, each of that contact's lead alone, and returns counts
    whose sum is the number of contacts, with one outcome per contact. *)
Theorem delivery_fallback (be : backend) (contacts : list Apollo.contact)
  (e : exn) :
  contacts <> [] ->
  bulkSummary (map formatLead contacts) (be 0 (map formatLead contacts))
    = Throw e ->
  exists s a f results,
    addLeads be contacts
    = (Ok s, PostLeads (map formatLead contacts)
             :: one_by_one (map formatLead contacts)) /\
    added s = JNum (Z.of_nat a) /\ failed s = JNum (Z.of_nat f) /\
    a + f = length contacts /\
    leads s = Some results /\
    length results = length contacts /\
    results = outcomes be 1 (map formatLead contacts) /\
    a = count_success results /\ f = count_failure results.
Proof.
  intros Hne Hbulk. unfold addLeads.
  destruct contacts as [|c contacts]; [contradiction|].
  cbn [length Nat.eqb]. rewrite Hbulk, addLeadsIndividually_outcomes.
  do 4 eexists. split; [reflexivity|]. cbn [added failed leads].
  repeat (split; [reflexivity|]).
  split; [|split; [|repeat split]].
  - rewrite count_total, length_outcomes. apply length_map.
  - reflexivity.
  - rewrite length_outcomes. apply length_map.
Qed.

Lemma delivery_fallback_witness :
  exists s results,
    addLeads Samples.bulkRefused Samples.twoContacts
    = (Ok s, PostLeads (map formatLead Samples.twoContacts)
             :: one_by_one (map formatLead Samples.twoContacts)) /\
    added s = JNum 1 /\ failed s = JNum 1 /\
    leads s = Some results /\ length results = 2.
Proof.
  destruct (delivery_fallback Samples.bulkRefused Samples.twoContacts
              (HttpError (Some 500%Z)))
    as (s & a & f & results & Hrun & Ha & Hf & _ & Hl & Hlen & Hres & Hca & Hcf).
  - discriminate.
  - reflexivity.
  - exists s, results. subst results a f. auto.
Defined.

(** C6, at an input where the code departs from it.  The backend accepts a
    bulk submission of two leads and reports that none was uploaded and two
    failed; [addLeads] returns two added and two failed. *)
Theorem bulk_zero_count_reported_as_all :
  exists s,
    addLeads Samples.nothingUploaded Samples.twoContacts
    = (Ok s, [PostLeads (map formatLead Samples.twoContacts)]) /\
    response s = Some (JObj [("ok", JBool true);
                             ("upload_count", JNum 0);
                             ("failed_count", JNum 2)]) /\
    added s = JNum 2 /\ failed s = JNum 2.
Proof. eexists. repeat split. Qed.

(** Where the counts the backend reports are truthy, they are returned, and
    where they are absent the defaults are. *)
Lemma bulk_counts_returned (ls : list lead) (fields : list (string * json))
  (up : json) :
  assoc "upload_count" fields = Some up -> truthy up = true ->
  forall s, bulkSummary ls (Resolved (Some (JObj fields))) = Ok s ->
            added s = up /\
            (assoc "failed_count" fields = None -> failed s = JNum 0).
Proof.
  intros Hup Tup s. unfold bulkSummary. cbn [await bind get].
  rewrite Hup. unfold or_else. cbn [truthyU Apollo.or_default].
  rewrite Tup. cbn [Apollo.or_default]. rewrite Tup.
  intros H. apply bind_ok in H as (str & _ & H). injection H as <-.
  cbn [added failed]. split; [reflexivity|]. now intros ->.
Qed.

Lemma bulk_counts_default (ls : list lead) (fields : list (string * json)) :
  assoc "upload_count" fields = None ->
  assoc "total_leads" fields = None ->
  assoc "failed_count" fields = None ->
  exists s, bulkSummary ls (Resolved (Some (JObj fields))) = Ok s /\
            added s = JLen ls /\ failed s = JNum 0.
Proof.
  intros Hup Htot Hfail. unfold bulkSummary. cbn [await bind get].
  rewrite Hup, Htot, Hfail. eexists. split; [reflexivity|]. auto.
Qed.

End SmartleadProperties.

(* ================================================================== *)
(** ** The controller: the stated properties *)
(* ================================================================== *)

Section PipelineProperties.

Import Pipeline.




End PipelineProperties.

Section ApolloMore.

Import Apollo.

Lemma enrichProfile_starves (be : backend) (url : string) :
  (forall k, rate_limited (be url k) = true) ->
  forall fuel k, enrichProfile fuel be url k = None.
Proof.
  intros Hlim. induction fuel as [|fuel IH]; intros k; [reflexivity|].
  cbn [enrichProfile].
  destruct (attempt_rate_limited url _ (Hlim k)) as (e & _ & E & He).
  now rewrite E, He, IH.
Qed.

Lemma mapEnrich_starves (fuel : nat) (be : backend) (url : string)
  (batch : list string) :
  (forall k, rate_limited (be url k) = true) ->
  In url batch -> mapEnrich fuel be batch = None.
Proof.
  intros Hlim. induction batch as [|u batch IH]; intros Hin; [contradiction|].
  cbn [mapEnrich]. destruct Hin as [-> | Hin].
  - now rewrite enrichProfile_starves.
  - rewrite (IH Hin). now destruct (enrichProfile fuel be u 0).
Qed.

Lemma batchLoop_starves (fuel : nat) (be : backend) (url : string)
  (batches : list chunk) (delayMs : Z) :
  (forall k, rate_limited (be url k) = true) ->
  forall todo acc,
    (exists b, In b todo /\ In url (elems b)) ->
    batchLoop fuel be batches todo delayMs acc = None.
Proof.
  intros Hlim. induction todo as [|batch rest IH]; intros acc (b & Hb & Hu).
  - contradiction.
  - cbn [batchLoop].
    destruct (mapEnrich fuel be (elems batch)) as [rs|] eqn:E; [|reflexivity].
    destruct (mapEnrich_no_raise _ _ _ _ E) as (results & ->).
    destruct Hb as [-> | Hb].
    + now rewrite (mapEnrich_starves fuel be url _ Hlim Hu) in E.
    + rewrite IH; [reflexivity | eauto].
Qed.

(** Whatever the fuel, the loop of [chunkArray] returns consecutive pieces
    when it returns. *)
Lemma chunkLoop_sound (array : list string) (w : nat) :
  0 < w ->
  forall fuel i acc chunks n,
    chunkLoop fuel array w i acc = Some chunks ->
    length array - i <= n ->
    chunks = (acc ++ tag (length acc) (pieces n w (skipn i array)))%list.
Proof.
  intros Hw. induction fuel as [|fuel IH]; intros i acc chunks n H Hn;
    [discriminate|].
  cbn [chunkLoop] in H. destruct (i <? length array)%nat eqn:E.
  - apply Nat.ltb_lt in E. destruct n as [|n]; [lia|].
    apply (IH _ _ _ n) in H; [|lia]. rewrite H.
    cbn [pieces]. destruct (skipn i array) as [|x rest] eqn:Es.
    + assert (Hlen : length (skipn i array) = 0) by now rewrite Es.
      rewrite length_skipn in Hlen. lia.
    + rewrite <- Es, slice_window, <- app_assoc. cbn [app tag].
      rewrite length_app, Nat.add_1_r, skipn_skipn.
      now rewrite (Nat.add_comm w i).
  - injection H as <-. apply Nat.ltb_ge in E. rewrite skipn_all2 by exact E.
    rewrite pieces_nil. cbn [tag]. now rewrite app_nil_r.
Qed.

Lemma chunkArray_sound (fuel : nat) (array : list string) (w : nat)
  (chunks : list chunk) :
  0 < w -> chunkArray fuel array w = Some chunks ->
  chunks = tag 0 (batches_of w array).
Proof.
  intros Hw H. unfold chunkArray in H.
  apply (chunkLoop_sound array w Hw fuel 0 [] chunks (length array)) in H;
    [exact H | lia].
Qed.

(** At width 0 the loop does not advance. *)
Lemma chunkLoop_stuck (array : list string) (i : nat) :
  i < length array ->
  forall fuel acc, chunkLoop fuel array 0 i acc = None.
Proof.
  intros Hi. induction fuel as [|fuel IH]; intros acc; [reflexivity|].
  cbn [chunkLoop]. apply Nat.ltb_lt in Hi. rewrite Hi.
  rewrite Nat.add_0_r. apply IH.
Qed.

(** X1.  With a width of 0 and at least one URL, neither [chunkArray] nor the
    batcher ever returns. *)
Theorem zero_width_never_returns (be : backend) (urls : list string)
  (delayMs : Z) :
  urls <> [] ->
  forall fuel,
    chunkArray fuel urls 0 = None /\
    enrichProfiles fuel be urls 0 delayMs = None.
Proof.
  intros Hne fuel.
  assert (H : chunkArray fuel urls 0 = None).
  { apply chunkLoop_stuck. destruct urls; [contradiction | cbn; lia]. }
  split; [exact H|]. unfold enrichProfiles. now rewrite H.
Qed.

Lemma zero_width_never_returns_witness :
  chunkArray 7 [Samples.ada] 0 = None /\
  enrichProfiles 7 Samples.throttled [Samples.ada] 0 defaultDelayMs = None.
Proof.
  apply (zero_width_never_returns Samples.throttled [Samples.ada]
           defaultDelayMs).
  discriminate.
Defined.

(** X2.  A URL whose every request is answered with 429 keeps its call from
    returning, and with it the whole batch run. *)
Theorem sustained_rate_limit_never_returns (be : backend) (url : string) :
  (forall k, rate_limited (be url k) = true) ->
  (forall fuel k, enrichProfile fuel be url k = None) /\
  (forall fuel urls w delayMs,
     In url urls -> enrichProfiles fuel be urls w delayMs = None).
Proof.
  intros Hlim. split; [now apply enrichProfile_starves|].
  intros fuel urls w delayMs Hin. unfold enrichProfiles.
  destruct (chunkArray fuel urls w) as [chunks|] eqn:E; [|reflexivity].
  destruct w as [|w].
  - unfold chunkArray in E. rewrite chunkLoop_stuck in E; [discriminate|].
    destruct urls; [contradiction | cbn; lia].
  - apply chunkArray_sound in E; [|lia]. subst chunks.
    apply (batchLoop_starves fuel be url _ delayMs Hlim).
    assert (Hcat : In url (concat (batches_of (S w) urls))).
    { unfold batches_of. rewrite concat_pieces; [exact Hin | lia | lia]. }
    apply in_concat in Hcat as (p & Hp & Hu).
    rewrite <- (map_elems_tag (batches_of (S w) urls) 0) in Hp.
    apply in_map_iff in Hp as (b & <- & Hb). eauto.
Qed.

Lemma sustained_rate_limit_never_returns_witness :
  (forall fuel k, enrichProfile fuel alwaysLimited Samples.ada k = None) /\
  (forall fuel urls w delayMs,
     In Samples.ada urls ->
     enrichProfiles fuel alwaysLimited urls w delayMs = None).
Proof.
  apply (sustained_rate_limit_never_returns alwaysLimited Samples.ada).
  intros k. reflexivity.
Defined.

End ApolloMore.

Section ApolloOrder.

Import Apollo.

Variables (fuel : nat) (be : backend) (settle : string -> nat).

Lemma mapEnrich_settled (batch : list string) :
  (forall u, In u batch -> settled fuel be settle u) ->
  mapEnrich fuel be batch
  = Some (map (fun u => (Ok (contact_of u (be u (settle u))),
                         (retries (settle u) u ++ [matchRequest u])%list))
              batch).
Proof.
  induction batch as [|u batch IH]; intros H; [reflexivity|].
  cbn [mapEnrich map]. destruct (H u (or_introl eq_refl)) as (Hf & Hlim & Hlast).
  rewrite (enrichProfile_settles be u (settle u) fuel 0) by (simpl; auto).
  rewrite IH by (intros; apply H; now right). reflexivity.
Qed.

Lemma promiseAll_oks {A B C} (f : A -> B) (g : A -> C) (l : list A) :
  promiseAll (map fst (map (fun u => (Ok (f u), g u)) l)) = Ok (map f l).
Proof.
  induction l as [|a l IH]; [reflexivity|].
  cbn [map fst promiseAll bind]. now rewrite IH.
Qed.

Lemma truthyResults_app (l l' : list (option contact)) :
  truthyResults (l ++ l') = (truthyResults l ++ truthyResults l')%list.
Proof.
  induction l as [|[c|] l IH]; cbn [app truthyResults]; [reflexivity | |];
    now rewrite IH.
Qed.

Lemma batchLoop_contacts (batches : list chunk) (delayMs : Z) :
  forall todo acc,
    (forall b u, In b todo -> In u (elems b) -> settled fuel be settle u) ->
    exists trace,
      batchLoop fuel be batches todo delayMs acc
      = Some (Ok (acc ++ answers be settle (concat (map elems todo)))%list,
              trace).
Proof.
  induction todo as [|batch rest IH]; intros acc H.
  - exists []. cbn. now rewrite app_nil_r.
  - cbn [batchLoop].
    rewrite mapEnrich_settled by (intros u Hu; apply (H batch); [now left | exact Hu]).
    rewrite promiseAll_oks.
    destruct (IH (acc ++ truthyResults
                    (map (fun u => contact_of u (be u (settle u)))
                         (elems batch)))%list) as (trace & ->).
    { intros b u Hb. apply H. now right. }
    eexists. cbn [map concat]. unfold answers.
    rewrite map_app, truthyResults_app, app_assoc. reflexivity.
Qed.

End ApolloOrder.

Section ApolloResults.

Import Apollo.

Lemma enrichProfiles_answers (fuel : nat) (be : backend)
  (settle : string -> nat) (urls : list string) (w : nat) (delayMs : Z) :
  0 < w -> length urls < fuel ->
  (forall u, In u urls -> settled fuel be settle u) ->
  exists trace,
    enrichProfiles fuel be urls w delayMs
    = Some (Ok (answers be settle urls), trace).
Proof.
  intros Hw Hf Hs. unfold enrichProfiles.
  rewrite chunkArray_batches by assumption.
  pose proof (concat_pieces w Hw (length urls) urls (le_n _)) as Hcat.
  fold (batches_of w urls) in Hcat.
  destruct (batchLoop_contacts fuel be settle (tag 0 (batches_of w urls))
              delayMs (tag 0 (batches_of w urls)) []) as (trace & Hrun).
  { intros b u Hb Hu. apply Hs. rewrite <- Hcat. apply in_concat.
    exists (elems b). split; [|exact Hu].
    rewrite <- (map_elems_tag (batches_of w urls) 0). now apply in_map. }
  rewrite map_elems_tag, Hcat in Hrun. cbn [app] in Hrun.
  now exists trace.
Qed.

Lemma length_answers (be : backend) (settle : string -> nat)
  (urls : list string) :
  length (answers be settle urls) <= length urls.
Proof.
  unfold answers. induction urls as [|u urls IH]; [auto|].
  cbn [map truthyResults length].
  destruct (contact_of u (be u (settle u))); cbn [length]; lia.
Qed.

(** X3.  For a positive width and calls that all return, the batcher returns
    the contacts of the URLs that have one, in the order of the input. *)
Theorem enrichProfiles_in_input_order (fuel : nat) (be : backend)
  (settle : string -> nat) (urls : list string) (w : nat) (delayMs : Z) :
  0 < w -> length urls < fuel ->
  (forall u, In u urls -> settled fuel be settle u) ->
  exists trace,
    enrichProfiles fuel be urls w delayMs
    = Some (Ok (answers be settle urls), trace) /\
    length (answers be settle urls) <= length urls /\
    Forall (fun c => In (linkedinUrl c) urls) (answers be settle urls).
Proof.
  intros Hw Hf Hs.
  destruct (enrichProfiles_answers fuel be settle urls w delayMs Hw Hf Hs)
    as (trace & Hrun).
  exists trace. split; [exact Hrun|]. split; [apply length_answers|].
  unfold answers. clear.
  induction urls as [|u urls IH]; [constructor|].
  cbn [map truthyResults].
  assert (Hrest : Forall (fun c => In (linkedinUrl c) (u :: urls))
            (truthyResults
               (map (fun u => contact_of u (be u (settle u))) urls))).
  { eapply Forall_impl; [|exact IH]. intros c Hc. now right. }
  destruct (contact_of u (be u (settle u))) as [c|] eqn:E; [|exact Hrest].
  constructor; [|exact Hrest]. left. unfold contact_of in E.
  destruct (enrichAttempt u (be u (settle u))) as [r|e] eqn:Ea;
    [|discriminate].
  subst r. apply enrichAttempt_some in Ea. symmetry. apply Ea.
Qed.

Lemma enrichProfiles_in_input_order_witness :
  exists trace,
    enrichProfiles 4 Samples.throttled ["a"; "b"; "c"] 2 1000
    = Some (Ok (answers Samples.throttled (fun _ => 2) ["a"; "b"; "c"]),
            trace).
Proof.
  destruct (enrichProfiles_in_input_order 4 Samples.throttled (fun _ => 2)
              ["a"; "b"; "c"] 2 1000) as (trace & Hrun & _).
  - lia.
  - cbn [length]. lia.
  - intros u _. split; [lia|]. split; [|reflexivity].
    intros k Hk. destruct k as [|[|k]]; [reflexivity | reflexivity | lia].
  - now exists trace.
Defined.

End ApolloResults.

Section LeadsMore.

Import Smartlead.

Lemma or_default_twice (a : option json) (d : json) :
  Apollo.or_default (Some (Apollo.or_default a d)) d = Apollo.or_default a d.
Proof.
  unfold Apollo.or_default. destruct a as [x|].
  - destruct (truthy x) eqn:E; [now rewrite E | now destruct (truthy d)].
  - now destruct (truthy d).
Qed.

(** X4.  The lead made of a contact that an enrichment call returned has the
    contact's fields as they are: none of the defaults of [formatLead]
    applies, and its email is not empty. *)
Theorem lead_of_enriched_contact (url : string) (o : http_outcome)
  (c : Apollo.contact) :
  Apollo.enrichAttempt url o = Ok (Some c) ->
  lead_email (formatLead c) = Apollo.email c /\
  truthy (lead_email (formatLead c)) = true /\
  first_name (formatLead c) = Apollo.firstName c /\
  last_name (formatLead c) = Apollo.lastName c /\
  company (formatLead c) = Apollo.companyName c /\
  lead_title (formatLead c) = Apollo.title c /\
  linkedin_url (formatLead c) = url.
Proof.
  intros H. pose proof (enrichAttempt_some _ _ _ H) as (_ & Ht & _ & _ & Hl).
  split; [reflexivity|]. split; [exact Ht|].
  unfold Apollo.enrichAttempt in H.
  destruct o as [data|e]; [|discriminate]. cbn [await bind] in H.
  destruct data as [d|]; [|discriminate].
  destruct (prop d "person") as [person|]; [|discriminate].
  cbn [bind] in H. destruct person as [person|]; [|discriminate].
  destruct (negb (truthy person)); [discriminate|].
  destruct (_ || _ || _); [discriminate|].
  destruct (get person "email"); [|discriminate].
  injection H as <-. cbn -[Apollo.or_default].
  now rewrite !or_default_twice.
Qed.

Lemma lead_of_enriched_contact_witness :
  exists c,
    Apollo.enrichAttempt Samples.ada (Resolved (Some Samples.verifiedAnswer))
    = Ok (Some c) /\
    first_name (formatLead c) = JStr "Ada" /\
    last_name (formatLead c) = JStr EmptyString /\
    linkedin_url (formatLead c) = Samples.ada.
Proof.
  eexists. split; [reflexivity|].
  destruct (lead_of_enriched_contact Samples.ada
              (Resolved (Some Samples.verifiedAnswer)) _ eq_refl)
    as (_ & _ & Hf & Hl & _ & _ & Hu).
  rewrite Hf, Hl, Hu. repeat split.
Defined.




Lemma result_email_outcomes (be : backend) (ls : list lead) :
  forall n, map result_email (outcomes be n ls) = map lead_email ls.
Proof.
  induction ls as [|l ls IH]; intros n; [reflexivity|].
  cbn [outcomes map]. rewrite IH. now destruct (await (be n [l])).
Qed.

Lemma outcomes_nth (be : backend) (ls : list lead) :
  forall n i l,
    nth_error ls i = Some l ->
    exists r, nth_error (outcomes be n ls) i = Some r /\
              success r = match be (n + i) [l] with
                          | Resolved _ => true
                          | Rejected _ => false
                          end.
Proof.
  induction ls as [|l0 ls IH]; intros n i l Hl.
  - destruct i; discriminate.
  - destruct i as [|i]; cbn [nth_error outcomes] in *.
    + injection Hl as <-. eexists. split; [reflexivity|].
      rewrite Nat.add_0_r. now destruct (be n [l0]).
    + destruct (IH (S n) i l Hl) as (r & Hr & Hs).
      exists r. split; [exact Hr|].
      now replace (n + S i) with (S n + i) by lia.
Qed.

(** X6.  In the fallback the outcomes are those of the contacts, in their
    order: the [i]-th outcome carries the email of the [i]-th contact, and
    is a success exactly when the [i]-th single upload resolved. *)
Theorem fallback_outcomes_in_order (be : backend)
  (contacts : list Apollo.contact) (e : exn) :
  contacts <> [] ->
  bulkSummary (map formatLead contacts) (be 0 (map formatLead contacts))
    = Throw e ->
  exists s results,
    fst (addLeads be contacts) = Ok s /\ leads s = Some results /\
    map result_email results = map Apollo.email contacts /\
    forall i c, nth_error contacts i = Some c ->
      exists r, nth_error results i = Some r /\
                success r = match be (S i) [formatLead c] with
                            | Resolved _ => true
                            | Rejected _ => false
                            end.
Proof.
  intros Hne Hbulk. unfold addLeads.
  destruct contacts as [|c0 contacts]; [contradiction|].
  cbn [length Nat.eqb]. rewrite Hbulk, addLeadsIndividually_outcomes.
  do 2 eexists. split; [reflexivity|]. split; [reflexivity|].
  split.
  - rewrite result_email_outcomes, map_map. reflexivity.
  - intros i c Hc.
    apply (outcomes_nth be (map formatLead (c0 :: contacts)) 1 i).
    now apply map_nth_error.
Qed.

Lemma fallback_outcomes_in_order_witness :
  exists s results,
    fst (addLeads Samples.bulkRefused Samples.twoContacts) = Ok s /\
    leads s = Some results /\
    map result_email results
    = [JStr "ada@example.com"; JStr "bob@example.com"] /\
    map success results = [true; false].
Proof.
  destruct (fallback_outcomes_in_order Samples.bulkRefused Samples.twoContacts
              (HttpError (Some 500%Z)))
    as (s & results & Hrun & Hl & Hemails & Hnth).
  - discriminate.
  - reflexivity.
  - exists s, results. split; [exact Hrun|]. split; [exact Hl|].
    split; [exact Hemails|].
    destruct (Hnth 0 _ eq_refl) as (r0 & H0 & S0).
    destruct (Hnth 1 _ eq_refl) as (r1 & H1 & S1).
    assert (Hlen : length results = 2).
    { rewrite <- (length_map result_email), Hemails. reflexivity. }
    destruct results as [|a [|b [|? ?]]]; try discriminate Hlen.
    cbn in H0, H1. injection H0 as ->. injection H1 as ->.
    cbn [map]. now rewrite S0, S1.
Defined.

End LeadsMore.

Section PipelineMore.

Import Pipeline.









End PipelineMore.

(* ================================================================== *)
(** ** The two extractors *)
(* ================================================================== *)

Section ExactExtractor.

Lemma filter_set_add (p : string -> bool) (x : string) (s : StrSet) :
  filter p (set_add x s)
  = if p x then set_add x (filter p s) else filter p s.
Proof.
  unfold set_add. destruct (set_has x s) eqn:E.
  - destruct (p x) eqn:Ep; [|reflexivity].
    assert (H : set_has x (filter p s) = true).
    { apply set_has_in, filter_In. split; [now apply set_has_in | exact Ep]. }
    now rewrite H.
  - rewrite filter_app. cbn [filter]. destruct (p x) eqn:Ep.
    + assert (H : set_has x (filter p s) = false).
      { destruct (set_has x (filter p s)) eqn:E'; [|reflexivity].
        apply set_has_in, filter_In in E' as [E' _].
        apply set_has_in in E'. congruence. }
      now rewrite H.
    + apply app_nil_r.
Qed.

Lemma dropEmpty_bind (r : result StrSet) (k k' : StrSet -> result StrSet) :
  (forall s, k' (filter nonempty s) = dropEmpty (k s)) ->
  bind (dropEmpty r) k' = dropEmpty (bind r k).
Proof. intros H. destruct r as [s|e]; cbn; [apply H | reflexivity]. Qed.

Lemma addNormalized_filter (n : option string) (s : StrSet) :
  ApifyExact.addNormalized n (filter nonempty s)
  = filter nonempty (match n with
                     | Some x => set_add x s
                     | None => s
                     end).
Proof.
  destruct n as [x|]; [|reflexivity]. unfold ApifyExact.addNormalized.
  rewrite filter_set_add. reflexivity.
Qed.

Lemma addUrlField_filter (v : option json) (s : StrSet) :
  ApifyExact.addUrlField v (filter nonempty s)
  = filter nonempty (Apify.addUrlField v s).
Proof.
  unfold ApifyExact.addUrlField, Apify.addUrlField.
  destruct v as [[| | |u| |]|]; try reflexivity.
  destruct (truthy (JStr u) && includes "linkedin.com/in/" u); [|reflexivity].
  apply addNormalized_filter.
Qed.

Lemma addUrlFields_filter (o : json) (s : StrSet) :
  ApifyExact.addUrlFields o (filter nonempty s)
  = filter nonempty (Apify.addUrlFields o s).
Proof.
  unfold ApifyExact.addUrlFields, Apify.addUrlFields.
  generalize Apify.urlFields. intros fields. revert s.
  induction fields as [|f fields IH]; intros s; [reflexivity|].
  cbn [fold_left]. now rewrite addUrlField_filter, IH.
Qed.

Lemma template_nonempty (id : string) :
  nonempty (Apify.profileTemplate id) = true.
Proof. reflexivity. Qed.

Lemma addIdentifier_filter (o : json) (k : string) (s : StrSet) :
  Apify.addIdentifier o k (filter nonempty s)
  = dropEmpty (Apify.addIdentifier o k s).
Proof.
  unfold Apify.addIdentifier. destruct (get o k) as [id|]; [|reflexivity].
  destruct (truthy id); [|reflexivity].
  destruct (toString id) as [str|e]; [|reflexivity].
  cbn [bind dropEmpty]. now rewrite filter_set_add, template_nonempty.
Qed.

Lemma forEach_filter {A} (body body' : A -> StrSet -> result StrSet)
  (l : list A) :
  (forall x s, body' x (filter nonempty s) = dropEmpty (body x s)) ->
  forall s, Apify.forEach body' l (filter nonempty s)
            = dropEmpty (Apify.forEach body l s).
Proof.
  intros H. induction l as [|x l IH]; intros s; [reflexivity|].
  cbn [Apify.forEach]. rewrite H. now apply dropEmpty_bind.
Qed.

Lemma addNested_filter (item : json) (objName : string) (s : StrSet) :
  ApifyExact.addNested item objName (filter nonempty s)
  = dropEmpty (Apify.addNested item objName s).
Proof.
  unfold ApifyExact.addNested, Apify.addNested.
  destruct (get item objName) as [o|]; [|reflexivity].
  destruct (truthy o && is_object o); [|reflexivity].
  rewrite addUrlFields_filter, addIdentifier_filter.
  apply dropEmpty_bind. intros s1. rewrite addIdentifier_filter.
  apply dropEmpty_bind. intros s2. apply addIdentifier_filter.
Qed.

Lemma extractUrlFromItem_filter (item : json) (s : StrSet) :
  ApifyExact.extractUrlFromItem item (filter nonempty s)
  = dropEmpty (Apify.extractUrlFromItem item s).
Proof.
  unfold ApifyExact.extractUrlFromItem, Apify.extractUrlFromItem.
  destruct (negb (truthy item)); [reflexivity|].
  rewrite addUrlFields_filter.
  rewrite (forEach_filter (Apify.addNested item)) by apply addNested_filter.
  apply dropEmpty_bind. intros s1. rewrite addIdentifier_filter.
  apply dropEmpty_bind. intros s2. apply addIdentifier_filter.
Qed.

Lemma extractComment_filter (comment : json) (s : StrSet) :
  ApifyExact.extractComment comment (filter nonempty s)
  = dropEmpty (Apify.extractComment comment s).
Proof.
  unfold ApifyExact.extractComment, Apify.extractComment.
  rewrite extractUrlFromItem_filter. apply dropEmpty_bind. intros s1.
  destruct (prop comment "author") as [[a|]|e]; cbn [bind]; try reflexivity.
  destruct (truthy a); [apply extractUrlFromItem_filter | reflexivity].
Qed.

Lemma forArray_filter (body body' : json -> StrSet -> result StrSet)
  (coll : option json) :
  (forall x s, body' x (filter nonempty s) = dropEmpty (body x s)) ->
  forall s, Apify.forArray body' coll (filter nonempty s)
            = dropEmpty (Apify.forArray body coll s).
Proof.
  intros H s. unfold Apify.forArray.
  destruct coll as [[| | | |items|]|]; try reflexivity.
  now apply forEach_filter.
Qed.

Lemma extractPost_filter (post : json) (s : StrSet) :
  ApifyExact.extractPost post (filter nonempty s)
  = dropEmpty (Apify.extractPost post s).
Proof.
  unfold ApifyExact.extractPost, Apify.extractPost.
  destruct (prop post "authorProfileUrl") as [author|e]; [|reflexivity].
  cbn [bind].
  assert (Hauthor :
    (if truthyU author
     then ApifyExact.addNormalized (Apify.normalizeLinkedInUrl author)
            (filter nonempty s)
     else filter nonempty s)
    = filter nonempty
        (if truthyU author
         then match Apify.normalizeLinkedInUrl author with
              | Some normalized => set_add normalized s
              | None => s
              end
         else s)).
  { destruct (truthyU author); [apply addNormalized_filter | reflexivity]. }
  rewrite Hauthor.
  rewrite (forArray_filter Apify.extractUrlFromItem)
    by apply extractUrlFromItem_filter.
  apply dropEmpty_bind. intros s1.
  rewrite (forArray_filter Apify.extractComment) by apply extractComment_filter.
  apply dropEmpty_bind. intros s2.
  apply forArray_filter, extractUrlFromItem_filter.
Qed.

(** The extractor with the test puts out what the extractor without it puts
    out, less the empty string, and throws when it throws. *)
Lemma extractProfileUrls_filter (postData : list json) :
  ApifyExact.extractProfileUrls postData
  = dropEmpty (Apify.extractProfileUrls postData).
Proof.
  unfold ApifyExact.extractProfileUrls, Apify.extractProfileUrls.
  destruct (match postData with JNull :: _ => Throw TypeError | _ => Ok tt end)
    as [[]|e]; [|reflexivity].
  cbn [bind]. change (@nil string) with (filter nonempty (@nil string)) at 1.
  apply forEach_filter, extractPost_filter.
Qed.

End ExactExtractor.

Section Conversions.

Lemma json_nested_ind (P : json -> Prop) :
  P JNull -> (forall b, P (JBool b)) -> (forall z, P (JNum z)) ->
  (forall s, P (JStr s)) ->
  (forall items, Forall P items -> P (JArr items)) ->
  (forall fields, Forall (fun kv => P (snd kv)) fields -> P (JObj fields)) ->
  forall v, P v.
Proof.
  intros Hnull Hbool Hnum Hstr Harr Hobj.
  exact (fix F (v : json) : P v :=
           match v with
           | JNull => Hnull
           | JBool b => Hbool b
           | JNum z => Hnum z
           | JStr s => Hstr s
           | JArr items =>
               Harr items
                 ((fix G (l : list json) : Forall P l :=
                     match l with
                     | [] => Forall_nil P
                     | x :: r => Forall_cons x (F x) (G r)
                     end) items)
           | JObj fields =>
               Hobj fields
                 ((fix G (l : list (string * json))
                     : Forall (fun kv => P (snd kv)) l :=
                     match l with
                     | [] => Forall_nil _
                     | kv :: r =>
                         @Forall_cons _ (fun kv => P (snd kv)) kv r
                           (F (snd kv)) (G r)
                     end) fields)
           end).
Qed.

Lemma only_bind {A B} (r : result A) (k : A -> result B) :
  only_type_error r -> (forall a, only_type_error (k a)) ->
  only_type_error (bind r k).
Proof.
  intros Hr Hk e H. destruct r as [a|e']; cbn in H.
  - exact (Hk a e H).
  - injection H as <-. now apply Hr.
Qed.

Lemma only_ok {A} (a : A) : only_type_error (Ok a).
Proof. intros e H. discriminate H. Qed.

Lemma only_throw {A} : only_type_error (@Throw A TypeError).
Proof. intros e H. now injection H. Qed.

(** ToString throws nothing but a [TypeError]. *)
Lemma toString_only (v : json) : only_type_error (toString v).
Proof.
  induction v as [|b|z|s|items IH|fields _] using json_nested_ind;
    try apply only_ok.
  - destruct b; apply only_ok.
  - cbn [toString]. induction IH as [|x rest Hx _ IHrest]; [apply only_ok|].
    apply only_bind.
    + destruct x; try apply only_ok; exact Hx.
    + intros sx. destruct rest as [|y rest]; [apply only_ok|].
      apply only_bind; [exact IHrest | intros; apply only_ok].
  - cbn [toString]. destruct (assoc "toString" fields);
      [apply only_throw | apply only_ok].
Qed.

(** ToString of a tame value returns. *)
Lemma toString_tame (v : json) :
  tame v = true -> exists s, toString v = Ok s.
Proof.
  induction v as [|b|z|s|items IH|fields _] using json_nested_ind;
    intros Ht; try (eexists; reflexivity).
  - destruct b; eexists; reflexivity.
  - cbn [tame] in Ht. cbn [toString].
    induction IH as [|x rest Hx _ IHrest]; [eexists; reflexivity|].
    cbn [forallb] in Ht. apply andb_true_iff in Ht as [Tx Trest].
    destruct (Hx Tx) as (sx & Ex). destruct (IHrest Trest) as (sr & Er).
    assert (Ehead : match x with JNull => Ok EmptyString | _ => toString x end
                    = Ok sx) by (destruct x; [discriminate Tx | | | | |]; exact Ex).
    rewrite Ehead. cbn [bind]. destruct rest as [|y rest]; [eexists; reflexivity|].
    rewrite Er. eexists. reflexivity.
  - cbn [tame] in Ht. cbn [toString].
    destruct (assoc "toString" fields); [discriminate | eexists; reflexivity].
Qed.

Lemma tame_assoc (k : string) (fields : list (string * json)) (v : json) :
  forallb (fun kv => tame (snd kv)) fields = true ->
  assoc k fields = Some v -> tame v = true.
Proof.
  induction fields as [|[k' v'] fields IH]; cbn [forallb assoc snd];
    [discriminate|].
  intros Ht Hk. apply andb_true_iff in Ht as [Tv Trest].
  destruct (String.eqb k k'); [now injection Hk as <- | auto].
Qed.

Lemma tame_get (v x : json) (k : string) :
  tame v = true -> get v k = Some x -> tame x = true.
Proof.
  destruct v; cbn [get]; try discriminate. cbn [tame].
  destruct (assoc "toString" fields); [discriminate|]. apply tame_assoc.
Qed.

Lemma tame_in (items : list json) (x : json) :
  forallb tame items = true -> In x items -> tame x = true.
Proof. intros H Hin. rewrite forallb_forall in H. auto. Qed.

End Conversions.

(* ================================================================== *)
(** ** What the extractor throws, keeps and finds *)
(* ================================================================== *)

Section ExtractorBehaviour.

Import Apify.

Lemma only_forEach {A} (body : A -> StrSet -> result StrSet) (l : list A) :
  (forall x s, only_type_error (body x s)) ->
  forall s, only_type_error (forEach body l s).
Proof.
  intros H. induction l as [|x l IH]; intros s; [apply only_ok|].
  cbn [forEach]. apply only_bind; auto.
Qed.

Lemma only_addIdentifier (o : json) (k : string) (s : StrSet) :
  only_type_error (addIdentifier o k s).
Proof.
  unfold addIdentifier. destruct (get o k) as [id|]; [|apply only_ok].
  destruct (truthy id); [|apply only_ok].
  apply only_bind; [apply toString_only | intros; apply only_ok].
Qed.

Lemma only_addNested (item : json) (objName : string) (s : StrSet) :
  only_type_error (addNested item objName s).
Proof.
  unfold addNested. destruct (get item objName) as [o|]; [|apply only_ok].
  destruct (truthy o && is_object o); [|apply only_ok].
  repeat (apply only_bind; [apply only_addIdentifier | intros]).
  apply only_addIdentifier.
Qed.

Lemma only_extractUrlFromItem (item : json) (s : StrSet) :
  only_type_error (extractUrlFromItem item s).
Proof.
  unfold extractUrlFromItem. destruct (negb (truthy item)); [apply only_ok|].
  apply only_bind; [apply only_forEach, only_addNested | intros].
  apply only_bind; [apply only_addIdentifier | intros].
  apply only_addIdentifier.
Qed.

Lemma only_prop (v : json) (k : string) : only_type_error (prop v k).
Proof. destruct v; try apply only_ok. apply only_throw. Qed.

Lemma only_extractComment (comment : json) (s : StrSet) :
  only_type_error (extractComment comment s).
Proof.
  unfold extractComment.
  apply only_bind; [apply only_extractUrlFromItem | intros s1].
  apply only_bind; [apply only_prop | intros [a|]]; [|apply only_ok].
  destruct (truthy a); [apply only_extractUrlFromItem | apply only_ok].
Qed.

Lemma only_forArray (body : json -> StrSet -> result StrSet)
  (coll : option json) (s : StrSet) :
  (forall x s, only_type_error (body x s)) ->
  only_type_error (forArray body coll s).
Proof.
  intros H. unfold forArray.
  destruct coll as [[| | | |items|]|]; try apply only_ok.
  now apply only_forEach.
Qed.

Lemma only_extractPost (post : json) (s : StrSet) :
  only_type_error (extractPost post s).
Proof.
  unfold extractPost. apply only_bind; [apply only_prop | intros author].
  apply only_bind;
    [apply only_forArray, only_extractUrlFromItem | intros s1].
  apply only_bind; [apply only_forArray, only_extractComment | intros s2].
  apply only_forArray, only_extractUrlFromItem.
Qed.

Lemma only_extractProfileUrls (postData : list json) :
  only_type_error (extractProfileUrls postData).
Proof.
  unfold extractProfileUrls. apply only_bind.
  - destruct postData as [|[| | | | |] ?]; try apply only_ok. apply only_throw.
  - intros _. apply only_forEach, only_extractPost.
Qed.

(** A loop whose body throws at [x] throws. *)
Lemma forEach_throws {A} (body : A -> StrSet -> result StrSet) (l : list A)
  (x : A) :
  (forall y s, only_type_error (body y s)) ->
  (forall s, body x s = Throw TypeError) ->
  In x l -> forall s, forEach body l s = Throw TypeError.
Proof.
  intros Honly Hx. induction l as [|y l IH]; intros Hin s; [contradiction|].
  cbn [forEach]. destruct (body y s) as [s1|e] eqn:E.
  - cbn [bind]. destruct Hin as [-> | Hin]; [|now apply IH].
    rewrite Hx in E. discriminate E.
  - cbn [bind]. now rewrite (Honly y s e E).
Qed.

Lemma extractPost_null_comment (post : json) (comments : list json) :
  get post "comments" = Some (JArr comments) -> In JNull comments ->
  forall s, extractPost post s = Throw TypeError.
Proof.
  intros Hc Hin s.
  assert (Hthrow : exists e, extractPost post s = Throw e).
  { unfold extractPost.
    destruct (prop post "authorProfileUrl") as [author|e]; [|now eexists].
    cbn [bind]. rewrite Hc. cbn [or_else truthyU truthy].
    destruct (forArray extractUrlFromItem _ _) as [s1|e]; [|now eexists].
    cbn [bind forArray].
    rewrite (forEach_throws extractComment comments JNull);
      [now eexists | apply only_extractComment | reflexivity | exact Hin]. }
  destruct Hthrow as (e & He). rewrite He.
  now rewrite (only_extractPost post s e He).
Qed.

(** *** Tame records *)

Lemma tame_addIdentifier (o : json) (k : string) (s : StrSet) :
  tame o = true -> exists s', addIdentifier o k s = Ok s'.
Proof.
  intros Ht. unfold addIdentifier.
  destruct (get o k) as [id|] eqn:E; [|now eexists].
  destruct (truthy id); [|now eexists].
  destruct (toString_tame id (tame_get _ _ _ Ht E)) as (str & ->).
  now eexists.
Qed.

Lemma tame_forEach {A} (body : A -> StrSet -> result StrSet) (l : list A) :
  (forall x s, In x l -> exists s', body x s = Ok s') ->
  forall s, exists s', forEach body l s = Ok s'.
Proof.
  induction l as [|x l IH]; intros H s; [now eexists|].
  cbn [forEach]. destruct (H x s (or_introl eq_refl)) as (s1 & ->).
  cbn [bind]. apply IH. intros y s2 Hy. apply H. now right.
Qed.

Lemma tame_addNested (item : json) (objName : string) (s : StrSet) :
  tame item = true -> exists s', addNested item objName s = Ok s'.
Proof.
  intros Ht. unfold addNested.
  destruct (get item objName) as [o|] eqn:E; [|now eexists].
  destruct (truthy o && is_object o); [|now eexists].
  pose proof (tame_get _ _ _ Ht E) as To.
  destruct (tame_addIdentifier o "publicId" (addUrlFields o s) To) as (s1 & ->).
  cbn [bind].
  destruct (tame_addIdentifier o "publicIdentifier" s1 To) as (s2 & ->).
  cbn [bind]. now apply tame_addIdentifier.
Qed.

Lemma tame_extractUrlFromItem (item : json) (s : StrSet) :
  tame item = true -> exists s', extractUrlFromItem item s = Ok s'.
Proof.
  intros Ht. unfold extractUrlFromItem.
  destruct (negb (truthy item)); [now eexists|].
  destruct (tame_forEach (addNested item) nestedObjects
              (fun x s0 _ => tame_addNested item x s0 Ht)
              (addUrlFields item s)) as (s1 & ->).
  cbn [bind].
  destruct (tame_addIdentifier item "publicId" s1 Ht) as (s2 & ->).
  cbn [bind]. now apply tame_addIdentifier.
Qed.

Lemma tame_extractComment (comment : json) (s : StrSet) :
  tame comment = true -> exists s', extractComment comment s = Ok s'.
Proof.
  intros Ht. unfold extractComment.
  destruct (tame_extractUrlFromItem comment s Ht) as (s1 & ->). cbn [bind].
  destruct comment; try discriminate Ht; cbn [prop bind get];
    try (now eexists).
  destruct (assoc "author" fields) as [a|] eqn:E; [|now eexists].
  destruct (truthy a); [|now eexists].
  apply tame_extractUrlFromItem.
  apply (tame_get (JObj fields) a "author" Ht E).
Qed.

Lemma tame_collection (post : json) (keys : list string) :
  tame post = true ->
  forall coll,
    fold_right (fun k rest => or_else (get post k) rest) emptyArray keys = coll ->
    match coll with
    | Some (JArr items) => forallb tame items = true
    | _ => True
    end.
Proof.
  intros Ht. induction keys as [|k keys IH]; intros coll <-; cbn [fold_right].
  - reflexivity.
  - unfold or_else at 1. destruct (truthyU (get post k)) eqn:E.
    + destruct (get post k) as [v|] eqn:Ev; [|exact I].
      pose proof (tame_get _ _ _ Ht Ev) as Tv.
      destruct v; try exact I. exact Tv.
    + now apply IH.
Qed.

Lemma tame_forArray (body : json -> StrSet -> result StrSet)
  (coll : option json) (s : StrSet) :
  (forall x s, tame x = true -> exists s', body x s = Ok s') ->
  match coll with
  | Some (JArr items) => forallb tame items = true
  | _ => True
  end ->
  exists s', forArray body coll s = Ok s'.
Proof.
  intros Hbody Hcoll. unfold forArray.
  destruct coll as [[| | | |items|]|]; try (now eexists).
  apply tame_forEach. intros x s0 Hx. apply Hbody.
  now apply (tame_in items).
Qed.

Lemma tame_extractPost (post : json) (s : StrSet) :
  tame post = true -> exists s', extractPost post s = Ok s'.
Proof.
  intros Ht. unfold extractPost.
  assert (Hp : prop post "authorProfileUrl"
               = Ok (get post "authorProfileUrl"))
    by (destruct post; try reflexivity; discriminate Ht).
  rewrite Hp. cbn [bind].
  match goal with
  | |- context [forArray extractUrlFromItem ?c ?s0] =>
      destruct (tame_forArray extractUrlFromItem c s0
                  tame_extractUrlFromItem) as (s1 & ->)
  end.
  { exact (tame_collection post ["reactions"; "likers"; "likes"] Ht _ eq_refl). }
  cbn [bind].
  match goal with
  | |- context [forArray extractComment ?c ?s0] =>
      destruct (tame_forArray extractComment c s0 tame_extractComment)
        as (s2 & ->)
  end.
  { exact (tame_collection post ["comments"; "commenters"] Ht _ eq_refl). }
  cbn [bind]. apply tame_forArray; [exact tame_extractUrlFromItem|].
  exact (tame_collection post ["engagements"; "engagement"] Ht _ eq_refl).
Qed.

End ExtractorBehaviour.

Section ExtractorFinds.

Import Apify.

Lemma forEach_app {A} (body : A -> StrSet -> result StrSet) (l l' : list A)
  (s : StrSet) :
  forEach body (l ++ l') s = bind (forEach body l s) (forEach body l').
Proof.
  revert s. induction l as [|x l IH]; intros s; [reflexivity|].
  cbn [app forEach]. destruct (body x s) as [s1|e]; cbn [bind]; auto.
Qed.

(** The extraction only appends to the set. *)
Lemma forEach_extends (posts : list json) (s s' : StrSet) :
  forEach extractPost posts s = Ok s' -> exists added, s' = (s ++ added)%list.
Proof.
  intros H.
  refine (forEach_inv (fun x => exists added, x = (s ++ added)%list)
            extractPost posts _ s s' H _).
  - intros x s0 s1.
    apply (extractPost_inv (fun x => exists added, x = (s ++ added)%list)
             (fun _ => True)); auto.
    intros y s2 _ (added & ->). unfold set_add.
    destruct (set_has y (s ++ added)%list); [now exists added|].
    exists (added ++ [y])%list. now rewrite app_assoc.
  - exists []. now rewrite app_nil_r.
Qed.

Lemma extractProfileUrls_app (a b : list json) (urls : list string) :
  extractProfileUrls (a ++ b) = Ok urls ->
  exists urlsA rest,
    extractProfileUrls a = Ok urlsA /\ urls = (urlsA ++ rest)%list.
Proof.
  destruct a as [|x a].
  - intros _. exists [], urls. split; reflexivity.
  - unfold extractProfileUrls. cbn [app].
    destruct x; cbn [bind]; try discriminate;
      match goal with
      | |- forEach _ (?h :: ?t) _ = _ -> _ =>
          change (h :: t) with ((h :: a) ++ b)%list
      end;
      rewrite forEach_app; intros H;
      apply bind_ok in H as (urlsA & Ha & Hb);
      apply forEach_extends in Hb as (rest & ->);
      exists urlsA, rest; (split; [exact Ha | reflexivity]).
Qed.

(** *** What an element offers is found *)

Section Found.

Variable x : string.
















End Found.

End ExtractorFinds.

Section ExactExtractorProperties.

Lemma exact_of (postData : list json) (urls : list string) :
  ApifyExact.extractProfileUrls postData = Ok urls ->
  exists urls0, Apify.extractProfileUrls postData = Ok urls0 /\
                urls = filter nonempty urls0.
Proof.
  rewrite extractProfileUrls_filter.
  destruct (Apify.extractProfileUrls postData) as [urls0|e];
    [|discriminate].
  cbn [dropEmpty]. intros H. injection H as <-. now exists urls0.
Qed.

Lemma exact_facts (postData : list json) (urls : list string) :
  ApifyExact.extractProfileUrls postData = Ok urls ->
  NoDup urls /\ ~ In EmptyString urls /\ Forall extracted_form urls.
Proof.
  intros H. destruct (exact_of _ _ H) as (urls0 & H0 & ->).
  split; [|split].
  - apply NoDup_filter. exact (extractProfileUrls_nodup _ _ H0).
  - intros Hin. apply filter_In in Hin as [_ Hne]. discriminate Hne.
  - apply Forall_forall. intros x Hx. apply filter_In in Hx as [Hx _].
    pose proof (extractProfileUrls_form _ _ H0) as Hform.
    rewrite Forall_forall in Hform. auto.
Qed.

Lemma only_exact (postData : list json) :
  only_type_error (ApifyExact.extractProfileUrls postData).
Proof.
  rewrite extractProfileUrls_filter. intros e H.
  apply (only_extractProfileUrls postData e).
  destruct (Apify.extractProfileUrls postData); [discriminate H | exact H].
Qed.

(** X10.  The extractor never puts out the empty string: a URL that is
    normalized to the empty string is left out.  Its output has no
    duplicates, every entry is a normalized URL or the filled template, and
    it is the output of [Apify.extractProfileUrls], which lacks the
    [if (normalized)] test, less the empty string. *)
Theorem extractor_leaves_out_empty (postData : list json)
  (urls : list string) :
  ApifyExact.extractProfileUrls postData = Ok urls ->
  ~ In EmptyString urls /\ NoDup urls /\ Forall extracted_form urls /\
  exists urls0, Apify.extractProfileUrls postData = Ok urls0 /\
                urls = filter nonempty urls0.
Proof.
  intros H. destruct (exact_facts _ _ H) as (H1 & H2 & H3).
  repeat (split; [assumption|]). exact (exact_of _ _ H).
Qed.

Lemma extractor_leaves_out_empty_witness :
  ApifyExact.extractProfileUrls
    [Samples.authoredBy "//?next=linkedin.com/in/ada";
     Samples.authoredBy "http://linkedin.com/in/ada/"]
  = Ok ["https://linkedin.com/in/ada"] /\
  ~ In EmptyString ["https://linkedin.com/in/ada"] /\
  Apify.extractProfileUrls
    [Samples.authoredBy "//?next=linkedin.com/in/ada";
     Samples.authoredBy "http://linkedin.com/in/ada/"]
  = Ok [EmptyString; "https://linkedin.com/in/ada"].
Proof.
  split; [reflexivity|].
  split; [|reflexivity].
  apply (extractor_leaves_out_empty
           [Samples.authoredBy "//?next=linkedin.com/in/ada";
            Samples.authoredBy "http://linkedin.com/in/ada/"]).
  reflexivity.
Defined.

(** X11.  The extractor throws nothing but a [TypeError], and throws one
    whenever a post record is [null] or a [comments] array holds a
    [null]. *)
Theorem extraction_type_errors (postData : list json) :
  only_type_error (ApifyExact.extractProfileUrls postData) /\
  (In JNull postData ->
   ApifyExact.extractProfileUrls postData = Throw TypeError) /\
  (forall post comments,
     In post postData -> get post "comments" = Some (JArr comments) ->
     In JNull comments ->
     ApifyExact.extractProfileUrls postData = Throw TypeError).
Proof.
  rewrite extractProfileUrls_filter.
  assert (Hthrows : forall x,
            In x postData ->
            (forall s, Apify.extractPost x s = Throw TypeError) ->
            Apify.extractProfileUrls postData = Throw TypeError).
  { intros x Hin Hx. unfold Apify.extractProfileUrls.
    destruct postData as [|[| | | | |] rest]; try reflexivity;
      try contradiction; cbn [bind];
      apply (forEach_throws Apify.extractPost _ x only_extractPost Hx Hin). }
  split; [|split].
  - intros e H. apply (only_extractProfileUrls postData e).
    destruct (Apify.extractProfileUrls postData); [discriminate H | exact H].
  - intros Hin. now rewrite (Hthrows JNull Hin).
  - intros post comments Hin Hc Hnull.
    now rewrite (Hthrows post Hin (extractPost_null_comment post comments Hc Hnull)).
Qed.

Lemma extraction_type_errors_witness :
  ApifyExact.extractProfileUrls
    [Samples.authoredBy Samples.ada; JObj [("comments", JArr [JNull])]]
  = Throw TypeError.
Proof.
  apply (proj2 (proj2 (extraction_type_errors
           [Samples.authoredBy Samples.ada; JObj [("comments", JArr [JNull])]]))
           (JObj [("comments", JArr [JNull])]) [JNull]).
  - right. now left.
  - reflexivity.
  - now left.
Defined.

(** X12.  On records that hold no [null] and no field named [toString], at
    any depth, the extractor returns. *)
Theorem extraction_returns_on_tame (postData : list json) :
  forallb tame postData = true ->
  exists urls, ApifyExact.extractProfileUrls postData = Ok urls.
Proof.
  intros Ht. rewrite extractProfileUrls_filter.
  assert (H : exists urls0, Apify.extractProfileUrls postData = Ok urls0).
  { unfold Apify.extractProfileUrls.
    assert (Hpre : match postData with
                   | JNull :: _ => Throw TypeError
                   | _ => Ok tt
                   end = Ok tt).
    { destruct postData as [|[| | | | |] rest]; try reflexivity.
      discriminate Ht. }
    rewrite Hpre. cbn [bind]. apply tame_forEach.
    intros x s Hx. apply tame_extractPost. now apply (tame_in postData). }
  destruct H as (urls0 & ->). now eexists.
Qed.

Lemma extraction_returns_on_tame_witness :
  exists urls,
    ApifyExact.extractProfileUrls
      [JObj [("reactions",
              JArr [JObj [("actor", JObj [("publicId", JArr [JNum 7])])]])]]
    = Ok urls.
Proof.
  apply extraction_returns_on_tame. reflexivity.
Defined.

(** X13.  Records that come later only append to what earlier records gave:
    the output for a list of records begins with the output for every
    prefix of it. *)
Theorem extraction_appends (a b : list json) (urls : list string) :
  ApifyExact.extractProfileUrls (a ++ b) = Ok urls ->
  exists urlsA rest,
    ApifyExact.extractProfileUrls a = Ok urlsA /\
    urls = (urlsA ++ rest)%list.
Proof.
  intros H. destruct (exact_of _ _ H) as (urls0 & H0 & ->).
  apply extractProfileUrls_app in H0 as (urlsA0 & rest0 & Ha & ->).
  exists (filter nonempty urlsA0), (filter nonempty rest0).
  rewrite extractProfileUrls_filter, Ha. split; [reflexivity|].
  apply filter_app.
Qed.

Lemma extraction_appends_witness :
  exists urlsA rest,
    ApifyExact.extractProfileUrls [Samples.authoredBy Samples.ada]
    = Ok urlsA /\
    ["https://www.linkedin.com/in/ada"; "https://linkedin.com/in/bob"]
    = (urlsA ++ rest)%list.
Proof.
  apply (extraction_appends
           [Samples.authoredBy Samples.ada]
           [Samples.authoredBy "http://linkedin.com/in/bob/"]).
  reflexivity.
Defined.



End ExactExtractorProperties.

(* ================================================================== *)
(** ** The public identifier of a profile URL *)
(* ================================================================== *)

Section PublicIdentifier.

Import ApolloIdentifier.

Lemma identifierRun_clean (s : string) :
  has_char "/" (identifierRun s) = false /\
  has_char "?" (identifierRun s) = false.
Proof.
  induction s as [|a s [IH1 IH2]]; [auto|]. cbn [identifierRun].
  destruct (Ascii.eqb a "/") eqn:E1; [auto|].
  destruct (Ascii.eqb a "?") eqn:E2; [auto|].
  cbn [orb has_char]. now rewrite E1, E2, IH1, IH2.
Qed.


Lemma startsWith_split (p s : string) :
  startsWith p s = true -> s = p ++ drop (String.length p) s.
Proof.
  revert s. induction p as [|a p IH]; intros s H; [reflexivity|].
  destruct s as [|b s]; [discriminate|]. cbn [startsWith] in H.
  apply andb_true_iff in H as [Hab H]. apply Ascii.eqb_eq in Hab. subst b.
  cbn [String.length drop append]. f_equal. now apply IH.
Qed.

Lemma startsWith_same (p q r : string) :
  startsWith (p ++ q) (p ++ r) = startsWith q r.
Proof.
  induction p as [|a p IH]; [reflexivity|].
  cbn [append startsWith]. now rewrite Ascii.eqb_refl, IH.
Qed.



Lemma identifierRun_prefix (r : string) :
  startsWith (identifierRun r) r = true.
Proof.
  induction r as [|a r IH]; [reflexivity|]. cbn [identifierRun].
  destruct (Ascii.eqb a "/" || Ascii.eqb a "?"); [reflexivity|].
  cbn [startsWith]. now rewrite Ascii.eqb_refl, IH.
Qed.

Lemma includes_head (p s : string) :
  startsWith p s = true -> includes p s = true.
Proof. intros H. destruct s; cbn [includes]; now rewrite H. Qed.

Lemma matchProfile_step (s : string) :
  matchProfile s
  = if negb (String.eqb
               (if startsWith "linkedin.com/in/" s
                then identifierRun (drop 16 s) else EmptyString)
               EmptyString)
    then Some (if startsWith "linkedin.com/in/" s
               then identifierRun (drop 16 s) else EmptyString)
    else match s with
         | EmptyString => None
         | String _ s' => matchProfile s'
         end.
Proof. destruct s; reflexivity. Qed.

Lemma matchProfile_sound (s id : string) :
  matchProfile s = Some id ->
  id <> EmptyString /\ has_char "/" id = false /\ has_char "?" id = false /\
  includes ("linkedin.com/in/" ++ id) s = true.
Proof.
  induction s as [|a s IH]; [discriminate|].
  assert (Hnext : matchProfile s = Some id ->
            id <> EmptyString /\ has_char "/" id = false /\
            has_char "?" id = false /\
            includes ("linkedin.com/in/" ++ id) (String a s) = true).
  { intros H. destruct (IH H) as (Hne & H1 & H2 & Hin).
    repeat (split; [assumption|]). cbn [includes]. rewrite Hin.
    apply orb_true_r. }
  remember (String a s) as s0 eqn:Hs0. rewrite matchProfile_step.
  destruct (startsWith "linkedin.com/in/" s0) eqn:Es.
  - pose proof (startsWith_split _ _ Es) as Heq.
    change (String.length "linkedin.com/in/") with 16 in Heq.
    remember (drop 16 s0) as r eqn:Hr.
    destruct (String.eqb (identifierRun r) EmptyString) eqn:E; cbn [negb].
    + rewrite Hs0 at 1. exact Hnext.
    + intros H. injection H as <-. apply String.eqb_neq in E.
      destruct (identifierRun_clean r) as [H1 H2].
      repeat (split; [assumption|]).
      rewrite Heq. apply includes_head.
      now rewrite startsWith_same, identifierRun_prefix.
  - cbn [String.eqb negb]. rewrite Hs0 at 1. exact Hnext.
Qed.

Lemma matchProfile_none (s : string) :
  includes "linkedin.com/in/" s = false -> matchProfile s = None.
Proof.
  induction s as [|a s IH]; intros H; rewrite matchProfile_step.
  - reflexivity.
  - cbn [includes] in H. apply orb_false_iff in H as [H1 H2].
    rewrite H1. cbn [String.eqb negb]. now apply IH.
Qed.



(** X15.  [extractPublicIdentifier] returns [null] for a falsy value, throws
    a [TypeError] for a truthy value that is no string, and returns [null]
    for a string without [linkedin.com/in/].  An identifier it returns is
    not empty, has no [/] and no [?], and stands in the URL right after
    [linkedin.com/in/]. *)
Theorem public_identifier_sound (v : option json) :
  (truthyU v = false -> extractPublicIdentifier v = Ok None) /\
  (truthyU v = true -> (forall s, v <> Some (JStr s)) ->
   extractPublicIdentifier v = Throw TypeError) /\
  (forall s, v = Some (JStr s) -> includes "linkedin.com/in/" s = false ->
             extractPublicIdentifier v = Ok None) /\
  (forall id,
     extractPublicIdentifier v = Ok (Some id) ->
     exists s, v = Some (JStr s) /\ id <> EmptyString /\
               has_char "/" id = false /\ has_char "?" id = false /\
               includes ("linkedin.com/in/" ++ id) s = true).
Proof.
  unfold extractPublicIdentifier. split; [|split; [|split]].
  - now intros ->.
  - intros -> Hs. destruct v as [[| | |s| |]|]; try reflexivity.
    now destruct (Hs s).
  - intros s -> Hin. destruct (negb (truthyU (Some (JStr s))));
      [reflexivity|]. now rewrite matchProfile_none.
  - intros id H. destruct (negb (truthyU v)); [discriminate|].
    destruct v as [[| | |s| |]|]; try discriminate.
    injection H as H. exists s. split; [reflexivity|].
    now apply matchProfile_sound.
Qed.

Lemma public_identifier_sound_witness :
  extractPublicIdentifier (Some (JNum 7)) = Throw TypeError /\
  extractPublicIdentifier (Some (JStr "https://linkedin.com/company/acme"))
  = Ok None /\
  exists s, Some (JStr "x linkedin.com/in//linkedin.com/in/ada?b") = Some (JStr s)
            /\ "ada" <> EmptyString /\
            has_char "/" "ada" = false /\ has_char "?" "ada" = false /\
            includes ("linkedin.com/in/" ++ "ada") s = true.
Proof.
  split; [|split].
  - apply (proj1 (proj2 (public_identifier_sound (Some (JNum 7)))));
      [reflexivity | intros s; discriminate].
  - apply (proj1 (proj2 (proj2 (public_identifier_sound
             (Some (JStr "https://linkedin.com/company/acme")))))
             "https://linkedin.com/company/acme"); reflexivity.
  - apply (proj2 (proj2 (proj2 (public_identifier_sound
             (Some (JStr "x linkedin.com/in//linkedin.com/in/ada?b"))))) "ada").
    reflexivity.
Defined.



End PublicIdentifier.

(* ================================================================== *)
(** ** Running the actor *)
(* ================================================================== *)

Section ActorRun.

Import ApifyRun.

Variable srv : server.

Lemma poll_gives_up (path : string) (ms : Z) (m : nat) :
  forall n,
    (forall k, k < m -> pending (srv (n + k) path) = true) ->
    poll srv path ms n m
    = (Raise (raised "Actor run timed out"), rounds m path ms).
Proof.
  induction m as [|m IH]; intros n H; [reflexivity|].
  cbn [poll rounds]. pose proof (H 0 (Nat.lt_0_succ m)) as H0.
  rewrite Nat.add_0_r in H0. unfold pending in H0.
  destruct (srv n path) as [data|f]; [|discriminate].
  destruct (statusOf data) as [status|f]; [|discriminate].
  apply andb_true_iff in H0 as [Hs Ht]. apply negb_true_iff in Hs.
  rewrite Hs. destruct (terminal status); [discriminate|].
  rewrite IH; [reflexivity|].
  intros k Hk. replace (S n + k) with (n + S k) by lia. apply H. lia.
Qed.

Lemma poll_pending_step (path : string) (ms : Z) (n m : nat) :
  pending (srv n path) = true ->
  poll srv path ms n (S m)
  = (fst (poll srv path ms (S n) m),
     Send "GET" path None :: Wait ms :: snd (poll srv path ms (S n) m)).
Proof.
  intros H0. cbn [poll]. unfold pending in H0.
  destruct (srv n path) as [data|f]; [|discriminate].
  destruct (statusOf data) as [status|f]; [|discriminate].
  apply andb_true_iff in H0 as [Hs Ht]. apply negb_true_iff in Hs.
  rewrite Hs. destruct (terminal status); [discriminate|].
  now destruct (poll srv path ms (S n) m).
Qed.

Lemma poll_after_pending (path : string) (ms : Z) (j : nat) :
  forall n m,
    (forall k, k < j -> pending (srv (n + k) path) = true) ->
    poll srv path ms n (j + m)
    = (fst (poll srv path ms (n + j) m),
       (rounds j path ms ++ snd (poll srv path ms (n + j) m))%list).
Proof.
  induction j as [|j IH]; intros n m H.
  - rewrite Nat.add_0_r. cbn. now destruct (poll srv path ms n m).
  - cbn [Nat.add]. rewrite poll_pending_step.
    + rewrite IH.
      * cbn [fst snd rounds app].
        now replace (S n + j) with (n + S j) by lia.
      * intros k Hk. replace (S n + k) with (n + S k) by lia. apply H. lia.
    + rewrite <- (Nat.add_0_r n). apply H. lia.
Qed.

Lemma poll_requests (path : string) (ms : Z) (m : nat) :
  forall n, requests (snd (poll srv path ms n m)) <= m /\
            waits (snd (poll srv path ms n m))
            <= requests (snd (poll srv path ms n m)).
Proof.
  induction m as [|m IH]; intros n; [cbn; lia|].
  cbn [poll]. destruct (srv n path) as [data|f]; [|cbn; lia].
  destruct (statusOf data) as [status|f]; [|cbn; lia].
  destruct (statusIs "SUCCEEDED" status); [cbn; lia|].
  destruct (terminal status); [cbn; lia|].
  specialize (IH (S n)). destruct (poll srv path ms (S n) m) as [r t].
  cbn [snd requests waits] in *. lia.
Qed.


(** X17.  [waitForRun] makes at most [maxAttempts] requests and sleeps at
    most once per request.  While every poll finds the run unfinished it
    goes on, and after [maxAttempts] polls, each followed by a sleep, it
    throws "Actor run timed out". *)
Theorem waitForRun_gives_up (runId : option json) (id : string)
  (maxAttempts : nat) (intervalMs : Z) (n : nat) :
  toStringU runId = Done id ->
  requests (snd (waitForRun srv runId maxAttempts intervalMs n))
    <= maxAttempts /\
  waits (snd (waitForRun srv runId maxAttempts intervalMs n))
    <= requests (snd (waitForRun srv runId maxAttempts intervalMs n)) /\
  ((forall k, k < maxAttempts ->
      pending (srv (n + k) ("/actor-runs/" ++ id)) = true) ->
   waitForRun srv runId maxAttempts intervalMs n
   = (Raise (raised "Actor run timed out"),
      rounds maxAttempts ("/actor-runs/" ++ id) intervalMs)).
Proof.
  intros Hid. unfold waitForRun. rewrite Hid.
  destruct maxAttempts as [|m]; [cbn; auto|].
  destruct (poll_requests ("/actor-runs/" ++ id) intervalMs (S m) n)
    as [Hr Hw].
  split; [exact Hr|]. split; [exact Hw|]. apply poll_gives_up.
Qed.

(** X18.  After [j] polls that found the run unfinished, the next poll
    decides: [SUCCEEDED] ends the wait, [FAILED], [ABORTED] and [TIMED-OUT]
    make it throw "Actor run" and the status, and a failed request makes it
    throw that failure.  There have been [j] sleeps, none after the last
    poll. *)
Theorem waitForRun_first_answer (runId : option json) (id : string)
  (maxAttempts : nat) (intervalMs : Z) (n j : nat) :
  toStringU runId = Done id -> j < maxAttempts ->
  (forall k, k < j -> pending (srv (n + k) ("/actor-runs/" ++ id)) = true) ->
  let path := "/actor-runs/" ++ id in
  let trace := (rounds j path intervalMs ++ [Send "GET" path None])%list in
  (reports "SUCCEEDED" (srv (n + j) path) = true ->
   waitForRun srv runId maxAttempts intervalMs n = (Done tt, trace)) /\
  (forall status,
     In status ["FAILED"; "ABORTED"; "TIMED-OUT"] ->
     reports status (srv (n + j) path) = true ->
     waitForRun srv runId maxAttempts intervalMs n
     = (Raise (raised ("Actor run " ++ status)), trace)) /\
  (forall f,
     srv (n + j) path = Failed f ->
     waitForRun srv runId maxAttempts intervalMs n = (Raise f, trace)).
Proof.
  intros Hid Hj Hpend path trace. unfold waitForRun. rewrite Hid.
  destruct maxAttempts as [|m]; [lia|].
  replace (S m) with (j + S (m - j)) by lia.
  fold path. rewrite (poll_after_pending path intervalMs j n _ Hpend).
  cbn [poll]. unfold reports. split; [|split].
  - intros H. destruct (srv (n + j) path) as [data|f]; [|discriminate].
    destruct (statusOf data) as [status|f]; [|discriminate].
    now rewrite H.
  - intros st Hst H.
    destruct (srv (n + j) path) as [data|f]; [|discriminate].
    destruct (statusOf data) as [status|f]; [|discriminate].
    destruct status as [[| | |t| |]|]; try discriminate H.
    cbn [statusIs] in H. apply String.eqb_eq in H. subst t.
    cbn [In] in Hst.
    destruct Hst as [<- | [<- | [<- | []]]]; reflexivity.
  - intros f ->. reflexivity.
Qed.

End ActorRun.

Section ActorRunWitnesses.

Import ApifyRun.

Lemma waitForRun_gives_up_witness :
  waitForRun stuckRun (Some (JStr "r1")) 3 10000 1
  = (Raise (raised "Actor run timed out"),
     rounds 3 "/actor-runs/r1" 10000).
Proof.
  apply (waitForRun_gives_up stuckRun (Some (JStr "r1")) "r1" 3 10000 1);
    [reflexivity|].
  intros k _. reflexivity.
Defined.

Lemma waitForRun_first_answer_witness :
  waitForRun slowRun (Some (JStr "r1")) 60 10000 1
  = (Done tt,
     (rounds 2 "/actor-runs/r1" 10000
      ++ [Send "GET" "/actor-runs/r1" None])%list).
Proof.
  apply (waitForRun_first_answer slowRun (Some (JStr "r1")) "r1" 60 10000 1 2);
    [reflexivity | lia | | reflexivity].
  intros k Hk. destruct k as [|[|k]]; [reflexivity | reflexivity | lia].
Defined.

End ActorRunWitnesses.

Section ActorRunMore.

Import ApifyRun.


(** X19.  When the run has not succeeded at its start and every one of the
    60 polls finds it unfinished, [runActor] throws "Apify actor failed:
    Actor run timed out", having made the start request and 60 polls, each
    followed by a sleep of 10000ms, and no request for the dataset. *)
Theorem runActor_times_out (srv : server) (actorId rid : string)
  (input : json) :
  started rid (srv 0 (startPath actorId)) ->
  (forall k, k < 60 -> pending (srv (1 + k) ("/actor-runs/" ++ rid)) = true) ->
  runActor srv actorId input
  = (Throw (Error "Apify actor failed: Actor run timed out"),
     Send "POST" (startPath actorId) (Some input)
     :: rounds 60 ("/actor-runs/" ++ rid) 10000).
Proof.
  intros (data & run & status & Hr & Hd & Hid & Hst & Hs) Hpend.
  unfold runActor, tryRun. fold (startPath actorId).
  rewrite Hr, Hd, Hid, Hst, Hs. cbn [negb].
  unfold waitForRun, defaultMaxAttempts. cbn [toStringU toString].
  rewrite (poll_gives_up srv _ defaultIntervalMs 60 1 Hpend). reflexivity.
Qed.

Lemma runActor_times_out_witness :
  fst (runActor stuckRun "supreme_coder/linkedin-post"
         (actorInput Samples.postUrl))
  = Throw (Error "Apify actor failed: Actor run timed out") /\
  waits (snd (runActor stuckRun "supreme_coder/linkedin-post"
                (actorInput Samples.postUrl))) = 60.
Proof.
  assert (H : runActor stuckRun "supreme_coder/linkedin-post"
                (actorInput Samples.postUrl)
              = (Throw (Error "Apify actor failed: Actor run timed out"),
                 Send "POST" (startPath "supreme_coder/linkedin-post")
                   (Some (actorInput Samples.postUrl))
                 :: rounds 60 ("/actor-runs/" ++ "r1") 10000)).
  { apply runActor_times_out.
    - do 3 eexists. repeat (split; [reflexivity|]). reflexivity.
    - intros k _. reflexivity. }
  rewrite H. split; reflexivity.
Defined.



(** X21.  Whatever the API answers, [getPostEngagers] either returns
    distinct, non-empty URLs, each a normalized URL or the filled template,
    or throws an [Error] whose message starts with "Apify actor failed: ",
    or a [TypeError]. *)
Theorem getPostEngagers_outcomes (srv : server) (actorId postUrl : string) :
  match fst (getPostEngagers srv actorId postUrl) with
  | Ok urls =>
      NoDup urls /\ ~ In EmptyString urls /\ Forall extracted_form urls
  | Throw e =>
      e = TypeError \/ exists msg, e = Error ("Apify actor failed: " ++ msg)
  end.
Proof.
  unfold getPostEngagers, runActor.
  destruct (tryRun srv actorId (actorInput postUrl)) as [[results|f] t].
  - destruct (lengthIsZero results); cbn [fst].
    + split; [constructor | split; [intros [] | constructor]].
    + unfold extractFrom. destruct results; cbn; auto.
      * split; [constructor | split; [intros [] | constructor]].
      * destruct (ApifyExact.extractProfileUrls items) as [urls|e] eqn:E.
        -- destruct (exact_facts _ _ E) as (H1 & H2 & H3). auto.
        -- left. exact (only_exact items e E).
  - cbn [fst]. unfold rethrow. destruct (toStringU (errorMsg f)); eauto.
Qed.

End ActorRunMore.

(* ================================================================== *)
(** ** Starting up *)
(* ================================================================== *)

Section StartingUp.

Import Boot.

Lemma require_given (e : env) (v : string) :
  given e v = true -> exists s, e v = Some s /\ require e v = Ok s.
Proof.
  unfold given, require. destruct (e v) as [s|]; [|discriminate].
  destruct (String.eqb s EmptyString); [discriminate|]. now exists s.
Qed.

Lemma missing_none (e : env) :
  missingVars e = [] <-> forall v, In v requiredEnvVars -> given e v = true.
Proof.
  unfold missingVars. split.
  - intros H v Hv. destruct (given e v) eqn:E; [reflexivity|].
    assert (Hin : In v (filter (fun v => negb (given e v)) requiredEnvVars)).
    { apply filter_In. split; [exact Hv | now rewrite E]. }
    rewrite H in Hin. contradiction.
  - intros H. induction requiredEnvVars as [|v vs IH]; [reflexivity|].
    cbn [filter]. rewrite (H v (or_introl eq_refl)). cbn [negb].
    apply IH. intros v' Hv'. apply H. now right.
Qed.

(** X22.  Once the check of [main] has found no variable missing, no
    constructor throws for a missing variable: [initializeServices] throws
    only what a library call threw, and when the library calls return it
    returns services that hold the values of the environment, the actor
    being [supreme_coder/linkedin-post] unless [APIFY_LINKEDIN_ACTOR_ID]
    names another. *)
Theorem validated_environment (e : env) (l : libs) :
  missingVars e = [] ->
  (forall err, fst (initializeServices e l) = Throw err ->
     exists c, In c (snd (initializeServices e l)) /\ l c = Throw err) /\
  ((forall c, l c = Ok tt) ->
   exists s,
     fst (initializeServices e l) = Ok s /\
     e "SLACK_BOT_TOKEN" = Some (botToken (slack s)) /\
     e "SLACK_SIGNING_SECRET" = Some (signingSecret (slack s)) /\
     e "SLACK_CHANNEL_ID" = Some (channelId (slack s)) /\
     e "APIFY_API_TOKEN" = Some (apiToken (apify s)) /\
     e "APOLLO_API_KEY" = Some (apolloKey (apollo s)) /\
     e "SMARTLEAD_API_KEY" = Some (smartleadKey (smartlead s)) /\
     e "SMARTLEAD_CAMPAIGN_ID" = Some (campaignId (smartlead s)) /\
     actorId (apify s)
     = orDefault e "APIFY_LINKEDIN_ACTOR_ID" "supreme_coder/linkedin-post").
Proof.
  intros Hmiss. rewrite missing_none in Hmiss.
  assert (Hreq : forall v, In v requiredEnvVars ->
            exists s, e v = Some s /\ require e v = Ok s)
    by (intros v Hv; apply require_given; auto).
  destruct (Hreq "SLACK_BOT_TOKEN") as (v1 & E1 & R1); [cbn; tauto|].
  destruct (Hreq "SLACK_SIGNING_SECRET") as (v2 & E2 & R2); [cbn; tauto|].
  destruct (Hreq "SLACK_CHANNEL_ID") as (v3 & E3 & R3); [cbn; tauto|].
  destruct (Hreq "APIFY_API_TOKEN") as (v4 & E4 & R4); [cbn; tauto|].
  destruct (Hreq "APOLLO_API_KEY") as (v5 & E5 & R5); [cbn; tauto|].
  destruct (Hreq "SMARTLEAD_API_KEY") as (v6 & E6 & R6); [cbn; tauto|].
  destruct (Hreq "SMARTLEAD_CAMPAIGN_ID") as (v7 & E7 & R7); [cbn; tauto|].
  unfold initializeServices, newSlackService, newApifyService,
    newApolloService, newSmartleadService.
  rewrite R1, R2, R3, R4, R5, R6, R7. cbn [checked]. unfold calling.
  split.
  - intros err.
    repeat match goal with
    | |- context [l ?c] =>
        let E := fresh "El" in
        destruct (l c) as [[]|?] eqn:E; cbn [andThen fst snd app]
    end; intros H; try discriminate H; injection H as <-;
      eexists; (split; [|eassumption]); cbn [In app]; tauto.
  - intros Hl. rewrite !Hl. cbn [andThen fst].
    eexists. split; [reflexivity|]. cbn.
    rewrite E1, E2, E3, E4, E5, E6, E7. auto 10.
Qed.

Lemma validated_environment_witness :
  exists s,
    fst (initializeServices (sampleEnv false) libsWork) = Ok s /\
    apolloKey (apollo s) = "k3" /\
    actorId (apify s) = "supreme_coder/linkedin-post".
Proof.
  destruct (validated_environment (sampleEnv false) libsWork eq_refl)
    as (_ & Hok).
  destruct (Hok (fun _ => eq_refl))
    as (s & Hs & _ & _ & _ & _ & H5 & _ & _ & Hactor).
  exists s. split; [exact Hs|]. split; [|exact Hactor].
  cbn in H5. now injection H5.
Defined.

(** X23.  When one of the seven required variables is unset or empty,
    [main] exits with code 1 before any service is constructed; when all are
    set and the library calls return, it ends listening, having constructed
    the four services in the order Slack, Apify, Apollo, Smartlead. *)
Theorem main_checks_environment (e : env) (l : libs) :
  ((exists v, In v requiredEnvVars /\ given e v = false) ->
   main e l = (Exit 1, [])) /\
  ((forall v, In v requiredEnvVars -> given e v = true) ->
   (forall c, l c = Ok tt) ->
   exists s app,
     main e l
     = (Listening s,
        [app; AxiosCreate "https://api.apify.com/v2";
         AxiosCreate "https://api.apollo.io/api/v1";
         AxiosCreate "https://server.smartlead.ai/api/v1"; Start])).
Proof.
  unfold main. split.
  - intros (v & Hv & Hg).
    assert (Hin : In v (missingVars e)).
    { apply filter_In. split; [exact Hv | now rewrite Hg]. }
    destruct (missingVars e) as [|x xs]; [contradiction | reflexivity].
  - intros Hall Hl. apply missing_none in Hall as Hmiss. rewrite Hmiss.
    cbn [length Nat.ltb Nat.leb].
    assert (Hreq : forall v, In v requiredEnvVars ->
              exists s, e v = Some s /\ require e v = Ok s)
      by (intros v Hv; apply require_given; auto).
    destruct (Hreq "SLACK_BOT_TOKEN") as (v1 & E1 & R1); [cbn; tauto|].
    destruct (Hreq "SLACK_SIGNING_SECRET") as (v2 & E2 & R2); [cbn; tauto|].
    destruct (Hreq "SLACK_CHANNEL_ID") as (v3 & E3 & R3); [cbn; tauto|].
    destruct (Hreq "APIFY_API_TOKEN") as (v4 & E4 & R4); [cbn; tauto|].
    destruct (Hreq "APOLLO_API_KEY") as (v5 & E5 & R5); [cbn; tauto|].
    destruct (Hreq "SMARTLEAD_API_KEY") as (v6 & E6 & R6); [cbn; tauto|].
    destruct (Hreq "SMARTLEAD_CAMPAIGN_ID") as (v7 & E7 & R7); [cbn; tauto|].
    unfold initializeServices, newSlackService, newApifyService,
      newApolloService, newSmartleadService.
    rewrite R1, R2, R3, R4, R5, R6, R7. cbn [checked]. unfold calling.
    rewrite !Hl. cbn [andThen app]. do 2 eexists. reflexivity.
Qed.

Lemma main_checks_environment_witness :
  main (sampleEnv true) libsWork = (Exit 1, []).
Proof.
  apply (proj1 (main_checks_environment (sampleEnv true) libsWork)).
  exists "APOLLO_API_KEY". split; [cbn; tauto | reflexivity].
Defined.

End StartingUp.
